(** * The put.io client library: URL bucket and subscription filters

    A shallow embedding of [assets/www/putio.js]: the helper functions
    [trim], [isArray] and [fileTypeToInt], the object constructors
    [BaseObj], [BaseApiObj], [Url], [Torrent] and [Multipart], the
    [UrlBucket] closure with its private variables, the private filter
    functions of [Subscription] with the methods that use them and [edit],
    and of the Api object [getItems], the loops that wrap a response and
    the folder list.

    Conventions of the embedding.
    - JavaScript values are a first-order datatype; the three closures the
      bucket code creates or meets are defunctionalised.
    - Numbers are the integer-valued ones ([Z]); NaN and fractions are not
      represented.
    - Strings are sequences of code units below 256.
    - An object is an association list in property insertion order, which
      is the order in which [for (k in o)] visits string keys.
    - The private variables of a bucket are a record threaded through a
      state-and-exception monad, so that the state at the moment of a
      [throw] is observable.
    - A remote call is split in two: the request a method hands to
      [callServerMethod], and the callback run on the results. *)

From Stdlib Require Import ZArith List String Ascii Bool Lia.
Import ListNotations.
Open Scope string_scope.

(** ** Values *)

Set Warnings "-register-all".

Inductive value : Type :=
| VUndefined
| VNull
| VBool (b : bool)
| VNum (n : Z)
| VStr (s : string)
| VArr (elems : list value)
| VObj (props : list (string * value))
| VApi                      (* the object returned by [Api(...)] *)
| VGetApi (api : value)     (* function() { return api; } *)
| VUrlToString.             (* function() { return this.url; } *)

Definition obj : Type := list (string * value).

(** The result of running a piece of code: a value, a thrown string, a
    TypeError raised by the engine, or a construct this embedding does not
    give a meaning to. *)
Inductive outcome (A : Type) : Type :=
| Ok (a : A)
| Throw (msg : string)
| TypeError
| Unsupported.

Arguments Ok {A} a.
Arguments Throw {A} msg.
Arguments TypeError {A}.
Arguments Unsupported {A}.

Definition truthy (v : value) : bool :=
  match v with
  | VUndefined | VNull => false
  | VBool b => b
  | VNum n => negb (Z.eqb n 0)
  | VStr s => negb (String.eqb s "")
  | _ => true
  end.

(** [a || b] *)
Definition js_or (a b : value) : value := if truthy a then a else b.

Definition typeof (v : value) : string :=
  match v with
  | VUndefined => "undefined"
  | VBool _ => "boolean"
  | VNum _ => "number"
  | VStr _ => "string"
  | VNull | VArr _ | VObj _ | VApi => "object"
  | VGetApi _ | VUrlToString => "function"
  end.

Definition instanceofArray (v : value) : bool :=
  match v with VArr _ => true | _ => false end.

Definition isArray (input : value) : bool :=
  String.eqb (typeof input) "object" && instanceofArray input.

Definition elems_of (v : value) : list value :=
  match v with VArr l => l | _ => [] end.

(** ** Objects as ordered property lists *)

Section Props.
Context {A : Type}.

Fixpoint lookup (k : string) (o : list (string * A)) : option A :=
  match o with
  | [] => None
  | (k', v) :: o' => if String.eqb k k' then Some v else lookup k o'
  end.

(** [o[k] = v]: overwrite in place, or add as the last property. *)
Fixpoint set_prop (k : string) (v : A) (o : list (string * A))
  : list (string * A) :=
  match o with
  | [] => [(k, v)]
  | (k', v') :: o' =>
      if String.eqb k k' then (k', v) :: o' else (k', v') :: set_prop k v o'
  end.

Definition keys (o : list (string * A)) : list string := map fst o.
End Props.

(** [o.k] on an object. *)
Definition get (k : string) (o : obj) : value :=
  match lookup k o with Some v => v | None => VUndefined end.

(** [v.url] on any value: null and undefined have no properties; none of the
    other non-object values has a property of that name. *)
Definition url_of (v : value) : outcome value :=
  match v with
  | VUndefined | VNull => TypeError
  | VObj o => Ok (get "url" o)
  | _ => Ok VUndefined
  end.

(** [v > 0] for the values the code compares. *)
Definition gt_zero (v : value) : outcome bool :=
  match v with
  | VNum n => Ok (Z.ltb 0 n)
  | VUndefined | VNull => Ok false
  | VBool b => Ok b
  | _ => Unsupported
  end.

(** [v.toString()] *)
Definition js_toString (v : value) : outcome value :=
  match v with
  | VStr s => Ok (VStr s)
  | VBool true => Ok (VStr "true")
  | VBool false => Ok (VStr "false")
  | VUndefined | VNull => TypeError
  | VObj o =>
      match lookup "toString" o with
      | None => Ok (VStr "[object Object]")
      | Some VUrlToString => Ok (get "url" o)
      | Some (VGetApi a) => Ok a
      | Some _ => TypeError
      end
  | _ => Unsupported
  end.

(** [o.getApi()] *)
Definition call_getApi (o : obj) : outcome value :=
  match lookup "getApi" o with
  | Some (VGetApi a) => Ok a
  | Some VUrlToString => Ok (get "url" o)
  | _ => TypeError
  end.

(** ** Object constructors *)

Definition BaseObj (args : option obj) : obj :=
  match args with Some o => o | None => [] end.

Definition BaseApiObj (api : value) (args : option obj) : obj :=
  let that := BaseObj args in
  set_prop "getApi" (VGetApi api) that.

Definition Url (api : value) (args : option obj) : obj :=
  let that := BaseApiObj api args in
  set_prop "toString" VUrlToString that.

Definition Torrent (api : value) (args : option obj) : obj :=
  BaseApiObj api args.

Definition Multipart (api : value) (args : option obj) : obj :=
  BaseApiObj api args.

(** ** The private state of a bucket *)

Definition links_t : Type := list (string * list value).

Record bucket : Type := mkBucket {
  api : value;
  _last_analyzed_bw_avail : value;
  _last_analyzed_disk_avail : value;
  _req_space : value;
  _paid_bw : value;
  _links : links_t
}.

(** [{ multiparturl : [], torrenturl : [], singleurl : [], error : [] }] *)
Definition fresh_links : links_t :=
  [("multiparturl", []); ("torrenturl", []); ("singleurl", []); ("error", [])].

Definition with_links (l : links_t) (b : bucket) : bucket :=
  mkBucket (api b) (_last_analyzed_bw_avail b) (_last_analyzed_disk_avail b)
           (_req_space b) (_paid_bw b) l.

(** ** State and exceptions *)

Definition M (A : Type) : Type := bucket -> outcome A * bucket.

Definition ret {A} (a : A) : M A := fun st => (Ok a, st).

Definition bind {A B} (m : M A) (f : A -> M B) : M B :=
  fun st =>
    match m st with
    | (Ok a, st') => f a st'
    | (Throw msg, st') => (Throw msg, st')
    | (TypeError, st') => (TypeError, st')
    | (Unsupported, st') => (Unsupported, st')
    end.

Definition lift {A} (o : outcome A) : M A := fun st => (o, st).
Definition throw {A} (msg : string) : M A := lift (Throw msg).
Definition read {A} (f : bucket -> A) : M A := fun st => (Ok (f st), st).
Definition modify (f : bucket -> bucket) : M unit := fun st => (Ok tt, f st).

Notation "x <- m ;; k" := (bind m (fun x => k))
  (at level 61, m at next level, right associativity).
Notation "m ;;; k" := (bind m (fun _ => k))
  (at level 61, right associativity).

Fixpoint for_each {A} (body : A -> M unit) (l : list A) : M unit :=
  match l with
  | [] => ret tt
  | x :: l' => body x ;;; for_each body l'
  end.

Fixpoint collect {A B} (body : A -> outcome B) (l : list A)
  : outcome (list B) :=
  match l with
  | [] => Ok []
  | x :: l' =>
      match body x with
      | Ok y =>
          match collect body l' with
          | Ok ys => Ok (y :: ys)
          | Throw m => Throw m
          | TypeError => TypeError
          | Unsupported => Unsupported
          end
      | Throw m => Throw m
      | TypeError => TypeError
      | Unsupported => Unsupported
      end
  end.

(** ** The bucket *)

Definition msg_add_arrays : string :=
  "Add method takes only arrays as arguments".
Definition msg_add : string :=
  "Add method takes only a string or an array as argument".
Definition msg_analyze : string :=
  "Analyze method takes a list. Use " ++
  "extract_urls() to convert string of urls to a list.".

(** [_links[key][_links[key].length] = x] *)
Definition push (key : string) (x : value) : M unit :=
  fun st =>
    match lookup key (_links st) with
    | None => (TypeError, st)
    | Some arr => (Ok tt, with_links (set_prop key (arr ++ [x])%list (_links st)) st)
    end.

(** The [info] argument of [_add] after [info = info || []]: the empty
    array when absent, the object otherwise. *)
Definition info_get (k : string) (info : option obj) : value :=
  match info with
  | None => if String.eqb k "length" then VNum 0 else VUndefined
  | Some o => get k o
  end.

Definition set_info (info : option obj) (b : bucket) : bucket :=
  mkBucket (api b)
    (js_or (info_get "last_analyzed_bw_avail" info) (_last_analyzed_bw_avail b))
    (js_or (info_get "last_analyzed_disk_avail" info)
           (_last_analyzed_disk_avail b))
    (js_or (info_get "req_space" info) (_req_space b))
    (js_or (info_get "paid_bw" info) (_paid_bw b))
    (_links b).

Definition _add (singleurl torrenturl multiparturl error : value)
    (info : option obj) : M unit :=
  let singleurl := js_or singleurl (VArr []) in
  let torrenturl := js_or torrenturl (VArr []) in
  let multiparturl := js_or multiparturl (VArr []) in
  let error := js_or error (VArr []) in
  for_each (fun l => if isArray l then ret tt else throw msg_add_arrays)
           [singleurl; torrenturl; multiparturl; error] ;;;
  for_each (push "singleurl") (elems_of singleurl) ;;;
  for_each (push "torrenturl") (elems_of torrenturl) ;;;
  for_each (push "multiparturl") (elems_of multiparturl) ;;;
  for_each (push "error") (elems_of error) ;;;
  nonempty <- lift (gt_zero (info_get "length" info)) ;;
  if nonempty : bool then modify (set_info info) else ret tt.

(** [UrlBucket(api, singleurl, torrenturl, multiparturl)]: the state the
    closure holds when the constructor returns. *)
Definition UrlBucket (a singleurl torrenturl multiparturl : value)
  : outcome unit * bucket :=
  _add singleurl torrenturl multiparturl VUndefined None
       (mkBucket a VNull VNull VNull VNull fresh_links).

(** [api.createBucket()] *)
Definition createBucket : bucket :=
  snd (UrlBucket VApi VUndefined VUndefined VUndefined).

Definition getReqSpace (b : bucket) : value := _req_space b.
Definition getPaidBw (b : bucket) : value := _paid_bw b.

(** [_links.k] *)
Definition links_get (k : string) (l : links_t) : value :=
  match lookup k l with Some arr => VArr arr | None => VUndefined end.

Definition getSingleUrls (b : bucket) : value := links_get "singleurl" (_links b).
Definition getTorrentUrls (b : bucket) : value :=
  links_get "torrenturl" (_links b).
Definition getMultipartUrls (b : bucket) : value :=
  links_get "multiparturl" (_links b).
Definition getErrorUrls (b : bucket) : value := links_get "errorurl" (_links b).

(** [that.add(url)]; the value returned is [_links]. *)
Definition add (url : value) : M links_t :=
  (if truthy url && String.eqb (typeof url) "string" then
     a <- read api ;;
     push "singleurl" (VObj (Url a (Some [("url", url)])))
   else if truthy url && isArray url then
     for_each (fun u =>
                 a <- read api ;;
                 push "singleurl" (VObj (Url a (Some [("url", u)]))))
              (elems_of url)
   else throw msg_add) ;;;
  read _links.

Record report : Type := mkReport {
  Current_Available_Disk_Space : value;
  Current_Available_Bandwidth : value;
  Required_Space : value;
  Bandwidth_to_be_deducted_from_quota : value;
  Urls : links_t
}.

Definition getReport (b : bucket) : report :=
  mkReport (_last_analyzed_disk_avail b) (_last_analyzed_bw_avail b)
           (_req_space b) (_paid_bw b) (_links b).

(** What a method hands to [callServerMethod]. *)
Record request : Type := mkRequest {
  path : string;
  method : string;
  params : obj
}.

(** The body of [for (key in _links)] shared by [fetch] and [analyze]:
    the partitions other than 'error', in property order. *)
Fixpoint staged (inner : list value -> outcome (list value)) (l : links_t)
  : outcome (list value) :=
  match l with
  | [] => Ok []
  | (key, arr) :: l' =>
      if String.eqb key "error" then staged inner l'
      else
        match inner arr with
        | Ok us =>
            match staged inner l' with
            | Ok vs => Ok (us ++ vs)%list
            | Throw m => Throw m
            | TypeError => TypeError
            | Unsupported => Unsupported
            end
        | Throw m => Throw m
        | TypeError => TypeError
        | Unsupported => Unsupported
        end
  end.

(** [that.fetch(callback)] up to the remote call. *)
Definition fetch : M request :=
  l <- read _links ;;
  go_fetch <- lift (staged (collect url_of) l) ;;
  ret (mkRequest "/transfers" "add" [("links", VArr go_fetch)]).

(** The inner loop of [analyze], [for (i = 0; i < _links.length; i++)]:
    its bound is a property of the [_links] object itself.  When [_links]
    has no property of that name the test [0 < undefined] fails at once. *)
Definition analyze_inner (l : links_t) (arr : list value)
  : outcome (list value) :=
  match links_get "length" l with
  | VUndefined => Ok []
  | _ => Unsupported
  end.

(** [that.analyze(callback, links)] up to the remote call. *)
Definition analyze (links : value) : M request :=
  let links := js_or links (VArr []) in
  if negb (isArray links) then throw msg_analyze
  else
    go_analyze <- lift (collect js_toString (elems_of links)) ;;
    l <- read _links ;;
    more <- lift (staged (analyze_inner l) l) ;;
    ret (mkRequest "/urls" "analyze" [("links", VArr (go_analyze ++ more)%list)]).

(** ** The results of '/urls' 'analyze'

    The callback reads [results.items.{multiparturl,torrent,singleurl,error}],
    [results.disk_avail] and [results.bw_avail]; of a record [r] it reads
    [r.paid_bw] and [r.size], which it adds to numbers, and of a multipart
    record also [r.parts].  The records are typed accordingly; [r_rest] holds
    the properties the callback does not read. *)

Record record : Type := mkRecord {
  r_size : Z;
  r_paid_bw : Z;
  r_rest : obj
}.

Record multipart_record : Type := mkMultipart {
  m_size : Z;
  m_paid_bw : Z;
  m_parts : list obj;
  m_rest : obj
}.

Record results : Type := mkResults {
  items_multiparturl : list multipart_record;
  items_torrent : list record;
  items_singleurl : list record;
  items_error : list value;
  disk_avail : value;
  bw_avail : value
}.

Definition obj_of_record (r : record) : obj :=
  ("size", VNum (r_size r)) :: ("paid_bw", VNum (r_paid_bw r)) :: r_rest r.

(** The locals [paid_bw], [req_space] and the array a loop fills. *)
Definition acc : Type := (Z * Z * list value)%type.

Definition multipart_loop (a : value) (rs : list multipart_record) (s : acc)
  : acc :=
  fold_left
    (fun '(paid_bw, req_space, multipart_urls) r =>
       ((paid_bw + m_paid_bw r)%Z, (req_space + m_size r)%Z,
        fold_left (fun urls p => urls ++ [VObj (Multipart a (Some p))])%list
                  (m_parts r) multipart_urls))
    rs s.

Definition record_loop (mk : option obj -> obj) (rs : list record) (s : acc)
  : acc :=
  fold_left
    (fun '(paid_bw, req_space, urls) r =>
       ((paid_bw + r_paid_bw r)%Z, (req_space + r_size r)%Z,
        urls ++ [VObj (mk (Some (obj_of_record r)))])%list)
    rs s.

Definition error_loop (es : list value) : list value :=
  fold_left (fun error_urls e => error_urls ++ [VObj (Url e None)])%list es [].

(** The callback [analyze] passes to [callServerMethod], run on the
    results of the call. *)
Definition analyze_callback (res : results) : M unit :=
  a <- read api ;;
  let '(paid_bw, req_space, multipart_urls) :=
    multipart_loop a (items_multiparturl res) (0%Z, 0%Z, []) in
  let '(paid_bw, req_space, torrent_urls) :=
    record_loop (Torrent a) (items_torrent res) (paid_bw, req_space, []) in
  let '(paid_bw, req_space, single_urls) :=
    record_loop (Url a) (items_singleurl res) (paid_bw, req_space, []) in
  let error_urls := error_loop (items_error res) in
  modify (with_links fresh_links) ;;;
  _add (VArr single_urls) (VArr torrent_urls) (VArr multipart_urls)
       (VArr error_urls)
       (Some [("last_analyzed_disk_avail", disk_avail res);
              ("last_analyzed_bw_avail", bw_avail res);
              ("paid_bw", VNum paid_bw);
              ("req_space", VNum req_space)]).

(** ** Histories of a bucket *)

Inductive call : Type :=
| Add (url : value)
| Fetch
| Analyze (links : value)
| Analyzed (res : results).

Definition step (c : call) (st : bucket) : bucket :=
  match c with
  | Add url => snd (add url st)
  | Fetch => snd (fetch st)
  | Analyze links => snd (analyze links st)
  | Analyzed res => snd (analyze_callback res st)
  end.

Definition run (cs : list call) (st : bucket) : bucket :=
  fold_left (fun s c => step c s) cs st.

(** A constructor argument: absent, or an array of objects. *)
Definition locators (v : value) : Prop :=
  v = VUndefined \/ exists os : list obj, v = VArr (map VObj os).

Inductive reachable : bucket -> Prop :=
| reach_new a s t m st :
    locators s -> locators t -> locators m ->
    UrlBucket a s t m = (Ok tt, st) -> reachable st
| reach_step c st : reachable st -> reachable (step c st).

Definition part (k : string) (st : bucket) : list value :=
  match lookup k (_links st) with Some arr => arr | None => [] end.

Definition source_url (v : value) : value :=
  match v with VObj o => get "url" o | _ => VUndefined end.

Definition aggregates (st : bucket) : value * value * value * value :=
  (_req_space st, _paid_bw st, _last_analyzed_disk_avail st,
   _last_analyzed_bw_avail st).

(** ** Subscription filters *)

(** [\s] *)
Definition is_space (c : ascii) : bool :=
  let n := nat_of_ascii c in
  (Nat.leb 9 n && Nat.leb n 13) || Nat.eqb n 32 || Nat.eqb n 160.

Fixpoint ltrim (s : string) : string :=
  match s with
  | String c s' => if is_space c then ltrim s' else s
  | EmptyString => EmptyString
  end.

Fixpoint rtrim (s : string) : string :=
  match s with
  | String c s' =>
      let r := rtrim s' in
      if is_space c && String.eqb r "" then "" else String c r
  | EmptyString => EmptyString
  end.

(** [str.replace(/^\s+|\s+$/g, "")] *)
Definition trim (str : string) : string := rtrim (ltrim str).

(** [s.split(',')] *)
Fixpoint split_comma (s : string) : list string :=
  match s with
  | EmptyString => [""]
  | String c s' =>
      if Ascii.eqb c ","%char then "" :: split_comma s'
      else
        match split_comma s' with
        | t :: ts => String c t :: ts
        | [] => [String c ""]
        end
  end.

(** [l.join(',')] *)
Fixpoint join_comma (l : list string) : string :=
  match l with
  | [] => ""
  | [t] => t
  | t :: l' => t ++ "," ++ join_comma l'
  end.

Definition addFilter (filter : string) (args : list string) : string :=
  let filters := split_comma filter in
  let filters := fold_left (fun fs a => fs ++ [a])%list args filters in
  let filters := map trim filters in
  join_comma filters.

(** The inner loop of [removeFilter]: [ok] after the loop. *)
Fixpoint keep (f : string) (args : list string) : bool :=
  match args with
  | [] => true
  | a :: args' =>
      if String.eqb (trim f) (trim a) then false else keep f args'
  end.

Definition removeFilter (filter : string) (args : list string) : string :=
  let filters := split_comma filter in
  let new_filters :=
    fold_left
      (fun nf f => if keep f args then (nf ++ [trim f])%list else nf)
      filters [] in
  join_comma new_filters.

(** ** Notions used in the statements *)

Definition shape (mp t s e : list value) : links_t :=
  [("multiparturl", mp); ("torrenturl", t); ("singleurl", s); ("error", e)].

Definition is_object (v : value) : bool :=
  match v with VObj _ => true | _ => false end.

Definition objects (l : list value) : Prop := forallb is_object l = true.

(** The invariant of a bucket: the four properties of the literal, in its
    order, each holding objects only. *)
Record well_formed (st : bucket) : Prop := mkWf {
  wf_shape :
    _links st = shape (part "multiparturl" st) (part "torrenturl" st)
                      (part "singleurl" st) (part "error" st);
  wf_multipart : objects (part "multiparturl" st);
  wf_torrent : objects (part "torrenturl" st);
  wf_single : objects (part "singleurl" st);
  wf_error : objects (part "error" st)
}.

(** What one [add] call appends to the single partition. *)
Definition added (a url : value) : list value :=
  if truthy url && String.eqb (typeof url) "string"
  then [VObj (Url a (Some [("url", url)]))]
  else if truthy url && isArray url
       then map (fun u => VObj (Url a (Some [("url", u)]))) (elems_of url)
       else [].

Definition total {A} (f : A -> Z) (l : list A) : Z :=
  fold_right (fun r n => (f r + n)%Z) 0%Z l.

Definition multipart_objects (a : value) (rs : list multipart_record)
  : list value :=
  flat_map (fun r => map (fun p => VObj (Multipart a (Some p))) (m_parts r)) rs.

Definition record_objects (mk : option obj -> obj) (rs : list record)
  : list value :=
  map (fun r => VObj (mk (Some (obj_of_record r)))) rs.

Definition error_objects (es : list value) : list value :=
  map (fun e => VObj (Url e None)) es.

(** The partitions a response describes. *)
Definition classified (a : value) (res : results) : links_t :=
  shape (multipart_objects a (items_multiparturl res))
        (record_objects (Torrent a) (items_torrent res))
        (record_objects (Url a) (items_singleurl res))
        (error_objects (items_error res)).

Definition fetch_request (urls : list value) : request :=
  mkRequest "/transfers" "add" [("links", VArr urls)].

(** The order the specification gives: single, torrent, multipart. *)
Definition spec_fetch_order (st : bucket) : list value :=
  map source_url
      (part "singleurl" st ++ part "torrenturl" st ++ part "multiparturl" st).

(** The order of the properties of [_links]: multipart, torrent, single. *)
Definition fetch_order (st : bucket) : list value :=
  map source_url
      (part "multiparturl" st ++ part "torrenturl" st ++ part "singleurl" st).

Definition one_torrent_one_single : results :=
  mkResults [] [mkRecord 100 7 [("url", VStr "http://a/t.torrent")]]
            [mkRecord 5 1 [("url", VStr "http://a/s.bin")]] []
            (VNum 1000) (VNum 2000).

(** The arguments [add] documents: a string, or an array of strings. *)
Inductive add_arg : Type :=
| One (u : string)
| Many (us : list string).

Definition arg_value (a : add_arg) : value :=
  match a with One u => VStr u | Many us => VArr (map VStr us) end.

Definition arg_urls (a : add_arg) : list string :=
  match a with One u => [u] | Many us => us end.

(** A string passed on its own must not be empty. *)
Definition accepted (a : add_arg) : bool :=
  match a with One u => negb (String.eqb u "") | Many _ => true end.

(** The object [add] stores for the string [u]. *)
Definition locator (a : value) (u : string) : value :=
  VObj (Url a (Some [("url", VStr u)])).

(** A sequence of [add] calls, stopped by the first one that throws. *)
Definition add_all (args : list value) : M unit :=
  for_each (fun url => add url ;;; ret tt) args.

Definition keeps_aggregates {A} (m : M A) : Prop :=
  forall st, aggregates (snd (m st)) = aggregates st.

Definition one_error : results :=
  mkResults [] [] []
            [VObj [("url", VStr "http://a/bad"); ("error", VStr "not found")]]
            (VNum 1000) (VNum 2000).

(** ** Notions used for the filters *)

Definition no_comma (s : string) : bool :=
  forallb (fun c => negb (Ascii.eqb c ","%char)) (list_ascii_of_string s).

Definition starts_with_space (s : string) : bool :=
  match s with String c _ => is_space c | EmptyString => false end.

Fixpoint ends_with_space (s : string) : bool :=
  match s with
  | EmptyString => false
  | String c EmptyString => is_space c
  | String _ s' => ends_with_space s'
  end.

(** A token that [trim] leaves as it is. *)
Definition trimmed (t : string) : bool :=
  negb (starts_with_space t) && negb (ends_with_space t).

(** ** More of the bucket *)

(** [that.extractUrls(callback, text)] up to the remote call: nothing is
    sent without a callback. *)
Definition extractUrls (callback text : value) : option request :=
  if negb (truthy callback) then None
  else Some (mkRequest "/urls" "extracturls" [("txt", text)]).

(** The callback [extractUrls] passes to [callServerMethod]: the list it
    hands to the caller's callback. *)
Definition extractUrls_callback (results : list value) : outcome (list value) :=
  collect url_of results.

(** An argument of the constructor that makes [_add] throw. *)
Definition not_an_array (v : value) : bool := truthy v && negb (isArray v).

Definition initial (a : value) : bucket :=
  mkBucket a VNull VNull VNull VNull fresh_links.

(** An object whose own toString is the one [Url] installs. *)
Definition is_url_object (v : value) : bool :=
  match v with
  | VObj o =>
      match lookup "toString" o with Some VUrlToString => true | _ => false end
  | _ => false
  end.

Definition analyze_request (urls : list value) : request :=
  mkRequest "/urls" "analyze" [("links", VArr urls)].

(** The URLs of the records of a response that are not errors, in the
    order [fetch] sends them. *)
Definition dispatched (res : results) : list value :=
  (flat_map (fun r => map (get "url") (m_parts r)) (items_multiparturl res)
   ++ map (fun r => get "url" (obj_of_record r)) (items_torrent res)
   ++ map (fun r => get "url" (obj_of_record r)) (items_singleurl res))%list.

(** A record without a property named toString. *)
Definition plain (r : record) : bool :=
  match lookup "toString" (r_rest r) with None => true | Some _ => false end.

(** ** The Api object and the subscriptions *)

Definition outcome_bind {A B} (o : outcome A) (f : A -> outcome B)
  : outcome B :=
  match o with
  | Ok a => f a
  | Throw m => Throw m
  | TypeError => TypeError
  | Unsupported => Unsupported
  end.








(** [v.k] for a property name [k] no built-in object has. *)
Definition field_of (k : string) (v : value) : outcome value :=
  match v with
  | VUndefined | VNull => TypeError
  | VObj o => Ok (get k o)
  | _ => Ok VUndefined
  end.

(** The parameters every edit of a subscription starts from; [this] holds
    the properties of the subscription. *)
Definition subscription_params (this : obj) : obj :=
  [("id", get "id" this); ("title", get "name" this); ("url", get "url" this)].



(** The filter methods of a subscription, up to the remote call: [field] is
    do_filters or dont_filters, [change] is [addFilter] or [removeFilter];
    [args] is an array of strings or is absent.  A current filter that is
    not a string has no split method to call.  (The fourth function,
    delDontFilters, is assigned to another object than the subscription
    and is left out.) *)
Definition filters_method (field : string)
    (change : string -> list string -> string)
    (this : obj) (args : option (list string)) : outcome request :=
  let args := match args with Some l => l | None => [] end in
  match get field this with
  | VStr f =>
      Ok (mkRequest "/subscriptions" "edit"
                    (subscription_params this
                     ++ [(field, VStr (change f args))])%list)
  | VObj o =>
      match lookup "split" o with
      | Some (VGetApi _) | Some VUrlToString => Unsupported
      | _ => TypeError
      end
  | _ => TypeError
  end.

Definition addDoFilters := filters_method "do_filters" addFilter.
Definition addDontFilters := filters_method "dont_filters" addFilter.
Definition delDoFilters := filters_method "do_filters" removeFilter.

(** The callback of a filter method: the subscription afterwards. *)
Definition filters_callback (field : string) (this : obj)
    (results : list value) : outcome obj :=
  match results with
  | [] => Ok this
  | r :: _ => outcome_bind (field_of field r)
                           (fun v => Ok (set_prop field v this))
  end.

(** The loops that wrap every record of a response,
    [for (k = 0; k < results.length; k++) items[items.length] = mk(results[k])],
    for [mk] one of [Item], [Transfer], [Message], [Friend] applied to the
    api. *)
Definition wrap_all (mk : value -> value) (results : list value)
  : list value :=
  fold_left (fun items r => items ++ [mk r])%list results [].

(** The loop of [getSubscriptions],
    [for (k = 0; k < subscriptions.length; k++)
       subscriptions[subscriptions.length] = mk(results[k])]:
    its bound is the length of the array it fills. *)
Fixpoint subscriptions_loop (fuel : nat) (mk : value -> value)
    (results : list value) (k : nat) (subscriptions : list value)
  : option (list value) :=
  match fuel with
  | O => None
  | S fuel' =>
      if Nat.ltb k (List.length subscriptions)
      then subscriptions_loop fuel' mk results (S k)
             (subscriptions ++ [mk (nth k results VUndefined)])%list
      else Some subscriptions
  end.

(** The response of '/files' 'dirmap': a record with its sub folders under
    dirs; [props] are its other properties. *)
Inductive dirtree : Type :=
| Dir (props : obj) (dirs : list dirtree).

(** [createFolderList(treeList, folders)] of [getFolderList], returning the
    array [folders] it fills; [mk] is [Folder] applied to the api. *)
Fixpoint createFolderList (mk : obj -> value) (treeList : dirtree)
    (folders : list value) : list value :=
  match treeList with
  | Dir props dirs =>
      fold_left (fun fs d => createFolderList mk d fs) dirs
                (folders ++ [mk props])%list
  end.

(** The records of a tree, each before its sub folders. *)
Fixpoint preorder (t : dirtree) : list obj :=
  match t with
  | Dir props dirs => props :: flat_map preorder dirs
  end.



(** * Properties *)

(** ** The shape of [_links] *)

Lemma with_links_twice l l' st :
  with_links l (with_links l' st) = with_links l st.
Proof. reflexivity. Qed.

Lemma with_links_same st : with_links (_links st) st = st.
Proof. now destruct st. Qed.

Lemma objects_app l l' : objects l -> objects l' -> objects (l ++ l').
Proof.
  unfold objects. intros H H'. now rewrite forallb_app, H, H'.
Qed.

Lemma objects_map_VObj (os : list obj) : objects (map VObj os).
Proof. unfold objects. induction os; simpl; auto. Qed.

Lemma collect_url_of_objects l :
  objects l -> collect url_of l = Ok (map source_url l).
Proof.
  unfold objects. induction l as [|v l IH]; simpl; intros H.
  - reflexivity.
  - apply andb_true_iff in H as [Hv Hl].
    destruct v; try discriminate. simpl. now rewrite (IH Hl).
Qed.

Ltac push_loop xs :=
  induction xs as [|x xs IH]; intros st mp t s e H; simpl;
  [ unfold ret; rewrite app_nil_r, <- H; now rewrite with_links_same
  | unfold bind, push at 1; rewrite H; simpl;
    erewrite IH by reflexivity;
    now rewrite with_links_twice, <- app_assoc ].

Lemma push_all_single xs : forall st mp t s e,
  _links st = shape mp t s e ->
  for_each (push "singleurl") xs st
  = (Ok tt, with_links (shape mp t (s ++ xs) e) st).
Proof. push_loop xs. Qed.

Lemma push_all_torrent xs : forall st mp t s e,
  _links st = shape mp t s e ->
  for_each (push "torrenturl") xs st
  = (Ok tt, with_links (shape mp (t ++ xs) s e) st).
Proof. push_loop xs. Qed.

Lemma push_all_multipart xs : forall st mp t s e,
  _links st = shape mp t s e ->
  for_each (push "multiparturl") xs st
  = (Ok tt, with_links (shape (mp ++ xs) t s e) st).
Proof. push_loop xs. Qed.

Lemma push_all_error xs : forall st mp t s e,
  _links st = shape mp t s e ->
  for_each (push "error") xs st
  = (Ok tt, with_links (shape mp t s (e ++ xs)) st).
Proof. push_loop xs. Qed.

(** [_add] on four arrays: every partition is extended, in place. *)
Lemma _add_arrays ss ts ms es info st mp t s e :
  _links st = shape mp t s e ->
  _add (VArr ss) (VArr ts) (VArr ms) (VArr es) info st
  = (nonempty <- lift (gt_zero (info_get "length" info)) ;;
     if nonempty : bool then modify (set_info info) else ret tt)
      (with_links (shape (mp ++ ms) (t ++ ts) (s ++ ss) (e ++ es)) st).
Proof.
  intros H. unfold _add. cbn [js_or truthy].
  unfold bind at 1. cbn [for_each isArray typeof instanceofArray andb].
  cbn -[push gt_zero info_get set_info]. unfold bind at 1.
  cbn [elems_of]. rewrite (push_all_single ss st mp t s e H).
  unfold bind at 1.
  erewrite push_all_torrent by reflexivity.
  unfold bind at 1.
  erewrite push_all_multipart by reflexivity.
  unfold bind at 1.
  erewrite push_all_error by reflexivity.
  now rewrite !with_links_twice.
Qed.

Lemma part_with_links mp t s e st :
  part "multiparturl" (with_links (shape mp t s e) st) = mp /\
  part "torrenturl" (with_links (shape mp t s e) st) = t /\
  part "singleurl" (with_links (shape mp t s e) st) = s /\
  part "error" (with_links (shape mp t s e) st) = e.
Proof. repeat split. Qed.

Lemma well_formed_shape mp t s e st :
  objects mp -> objects t -> objects s -> objects e ->
  well_formed (with_links (shape mp t s e) st).
Proof. intros; now constructor. Qed.

Lemma js_or_default_twice v d : js_or (js_or v d) d = js_or v d.
Proof.
  unfold js_or. destruct (truthy v) eqn:E.
  - now rewrite E.
  - now destruct (truthy d).
Qed.

Lemma locators_default v :
  locators v -> exists os, js_or v (VArr []) = VArr (map VObj os).
Proof.
  intros [-> | [os ->]].
  - now exists [].
  - now exists os.
Qed.

Lemma _add_defaults s t m e info st :
  _add s t m e info st
  = _add (js_or s (VArr [])) (js_or t (VArr [])) (js_or m (VArr []))
         (js_or e (VArr [])) info st.
Proof. unfold _add. cbv zeta. now rewrite !js_or_default_twice. Qed.

(** ** The constructor and the calls keep the invariant *)

Lemma UrlBucket_well_formed a s t m st :
  locators s -> locators t -> locators m ->
  UrlBucket a s t m = (Ok tt, st) -> well_formed st /\ api st = a.
Proof.
  intros Hs Ht Hm. unfold UrlBucket. rewrite _add_defaults.
  destruct (locators_default s Hs) as [ss ->].
  destruct (locators_default t Ht) as [ts ->].
  destruct (locators_default m Hm) as [ms ->].
  change (js_or VUndefined (VArr [])) with (VArr []).
  erewrite _add_arrays by reflexivity. cbn.
  intros [= <-]. split; [|reflexivity].
  apply well_formed_shape; try apply objects_map_VObj. reflexivity.
Qed.

Lemma createBucket_reachable : reachable createBucket.
Proof.
  apply (reach_new VApi VUndefined VUndefined VUndefined);
    try (now left); reflexivity.
Qed.

Lemma add_loop us : forall st mp t s e,
  _links st = shape mp t s e ->
  for_each (fun u => a <- read api ;;
                     push "singleurl" (VObj (Url a (Some [("url", u)])))) us st
  = (Ok tt,
     with_links
       (shape mp t
          (s ++ map (fun u => VObj (Url (api st) (Some [("url", u)]))) us) e)
       st).
Proof.
  induction us as [|u us IH]; intros st mp t s e H; simpl.
  - unfold ret. rewrite app_nil_r, <- H. now rewrite with_links_same.
  - unfold bind at 1. unfold bind at 1. unfold read at 1, push at 1.
    rewrite H. simpl. erewrite IH by reflexivity.
    now rewrite with_links_twice, <- app_assoc.
Qed.

Lemma add_shape url st mp t s e :
  _links st = shape mp t s e ->
  snd (add url st)
  = with_links (shape mp t (s ++ added (api st) url) e) st.
Proof.
  intros H. unfold add, added.
  destruct (truthy url && String.eqb (typeof url) "string").
  - unfold bind, read, push. rewrite H. reflexivity.
  - destruct (truthy url && isArray url).
    + unfold bind at 1. erewrite add_loop by exact H. reflexivity.
    + unfold bind, throw, lift. simpl.
      rewrite app_nil_r, <- H. now rewrite with_links_same.
Qed.

Lemma add_outcome url st mp t s e :
  _links st = shape mp t s e ->
  fst (add url st)
  = if (truthy url && String.eqb (typeof url) "string")
       || (truthy url && isArray url)
    then Ok (shape mp t (s ++ added (api st) url) e)
    else Throw msg_add.
Proof.
  intros H. unfold add, added.
  destruct (truthy url && String.eqb (typeof url) "string").
  - unfold bind, read, push. rewrite H. reflexivity.
  - destruct (truthy url && isArray url).
    + unfold bind at 1. erewrite add_loop by exact H. reflexivity.
    + reflexivity.
Qed.

Lemma objects_added a url : objects (added a url).
Proof.
  unfold added.
  destruct (truthy url && String.eqb (typeof url) "string"); [reflexivity|].
  destruct (truthy url && isArray url); [|reflexivity].
  unfold objects. induction (elems_of url); simpl; auto.
Qed.

Lemma fetch_state st : snd (fetch st) = st.
Proof.
  unfold fetch, bind, read, lift, ret.
  now destruct (staged (collect url_of) (_links st)).
Qed.

Lemma analyze_state links st : snd (analyze links st) = st.
Proof.
  unfold analyze. destruct (negb (isArray (js_or links (VArr [])))).
  - reflexivity.
  - unfold bind, read, lift, ret.
    destruct (collect js_toString _); try reflexivity.
    now destruct (staged _ _).
Qed.

(** ** The callback of [analyze] *)

Lemma parts_loop a ps : forall urls,
  fold_left (fun urls p => urls ++ [VObj (Multipart a (Some p))])%list ps urls
  = (urls ++ map (fun p => VObj (Multipart a (Some p))) ps)%list.
Proof.
  induction ps as [|p ps IH]; intros urls; simpl.
  - now rewrite app_nil_r.
  - now rewrite IH, <- app_assoc.
Qed.

Lemma multipart_loop_eq a rs : forall paid_bw req_space urls,
  multipart_loop a rs (paid_bw, req_space, urls)
  = ((paid_bw + total m_paid_bw rs)%Z, (req_space + total m_size rs)%Z,
     (urls ++ multipart_objects a rs)%list).
Proof.
  unfold multipart_loop.
  induction rs as [|r rs IH]; intros paid_bw req_space urls; simpl.
  - now rewrite !Z.add_0_r, app_nil_r.
  - now rewrite IH, parts_loop, <- app_assoc, !Z.add_assoc.
Qed.

Lemma record_loop_eq mk rs : forall paid_bw req_space urls,
  record_loop mk rs (paid_bw, req_space, urls)
  = ((paid_bw + total r_paid_bw rs)%Z, (req_space + total r_size rs)%Z,
     (urls ++ record_objects mk rs)%list).
Proof.
  unfold record_loop.
  induction rs as [|r rs IH]; intros paid_bw req_space urls; simpl.
  - now rewrite !Z.add_0_r, app_nil_r.
  - now rewrite IH, <- app_assoc, !Z.add_assoc.
Qed.

Lemma error_loop_eq es : error_loop es = error_objects es.
Proof.
  unfold error_loop, error_objects.
  enough (G : forall acc,
             fold_left (fun error_urls e => error_urls ++ [VObj (Url e None)])%list
                       es acc
             = (acc ++ map (fun e => VObj (Url e None)) es)%list)
    by apply (G []).
  induction es as [|e es IH]; intros acc; simpl.
  - now rewrite app_nil_r.
  - now rewrite IH, <- app_assoc.
Qed.

(** The callback always returns, installs the partitions of the response
    and nothing else. *)
Lemma analyze_callback_eq res st :
  analyze_callback res st = (Ok tt, with_links (classified (api st) res) st).
Proof.
  unfold analyze_callback. unfold bind at 1. unfold read at 1.
  rewrite multipart_loop_eq, !record_loop_eq, error_loop_eq.
  unfold bind at 1. unfold modify at 1.
  erewrite _add_arrays by reflexivity.
  reflexivity.
Qed.

Lemma objects_classified a res :
  objects (multipart_objects a (items_multiparturl res)) /\
  objects (record_objects (Torrent a) (items_torrent res)) /\
  objects (record_objects (Url a) (items_singleurl res)) /\
  objects (error_objects (items_error res)).
Proof.
  unfold objects, multipart_objects, record_objects, error_objects.
  repeat split.
  - induction (items_multiparturl res) as [|r rs IH]; simpl; auto.
    rewrite forallb_app, IH, andb_true_r.
    induction (m_parts r); simpl; auto.
  - induction (items_torrent res); simpl; auto.
  - induction (items_singleurl res); simpl; auto.
  - induction (items_error res); simpl; auto.
Qed.

Lemma step_well_formed c st :
  well_formed st -> well_formed (step c st) /\ api (step c st) = api st.
Proof.
  intros W. destruct c as [url| |links|res]; simpl.
  - rewrite (add_shape url st _ _ _ _ (wf_shape st W)). split; [|reflexivity].
    destruct W. apply well_formed_shape; auto.
    apply objects_app; auto using objects_added.
  - now rewrite fetch_state.
  - now rewrite analyze_state.
  - rewrite analyze_callback_eq. split; [|reflexivity].
    destruct (objects_classified (api st) res) as (? & ? & ? & ?).
    now apply well_formed_shape.
Qed.

Lemma reachable_well_formed st : reachable st -> well_formed st.
Proof.
  induction 1 as [a s t m st Hs Ht Hm E | c st _ IH].
  - now apply (UrlBucket_well_formed a s t m).
  - now apply step_well_formed.
Qed.

Lemma reachable_run cs : forall st, reachable st -> reachable (run cs st).
Proof.
  unfold run. induction cs as [|c cs IH]; intros st R; simpl.
  - exact R.
  - apply IH. now apply reach_step.
Qed.

Lemma api_run cs : forall st, well_formed st -> api (run cs st) = api st.
Proof.
  unfold run. induction cs as [|c cs IH]; intros st W; simpl.
  - reflexivity.
  - destruct (step_well_formed c st W) as [W' E]. now rewrite IH.
Qed.

(** ** The request of [analyze] *)

Lemma collect_toString_strings us :
  collect js_toString (map VStr us) = Ok (map VStr us).
Proof. induction us as [|u us IH]; simpl; [|rewrite IH]; reflexivity. Qed.

Lemma analyze_inner_adds_nothing st :
  well_formed st -> staged (analyze_inner (_links st)) (_links st) = Ok [].
Proof. intros W. rewrite (wf_shape st W). reflexivity. Qed.

Lemma analyze_array l st :
  analyze (VArr l) st
  = (go_analyze <- lift (collect js_toString l) ;;
     l0 <- read _links ;;
     more <- lift (staged (analyze_inner l0) l0) ;;
     ret (mkRequest "/urls" "analyze" [("links", VArr (go_analyze ++ more)%list)]))
      st.
Proof. reflexivity. Qed.

(** On every bucket a history can produce, the request carries the
    candidates and nothing of what is staged. *)
Lemma analyze_sends_candidates_only st us :
  reachable st ->
  analyze (VArr (map VStr us)) st
  = (Ok (mkRequest "/urls" "analyze" [("links", VArr (map VStr us))]), st).
Proof.
  intros R. apply reachable_well_formed in R.
  rewrite analyze_array.
  unfold bind at 1. unfold lift at 1. rewrite collect_toString_strings.
  unfold bind, read, lift, ret. rewrite (analyze_inner_adds_nothing st R).
  now rewrite app_nil_r.
Qed.

(** C1.  A bucket in which "http://a/x" is staged in the single partition is
    asked to analyze the candidate "http://b/y": the request built carries
    the candidate alone, the staged URL is not in it. *)
Theorem analyze_request_omits_staged :
  let st := run [Add (VStr "http://a/x")] createBucket in
  map source_url (part "singleurl" st) = [VStr "http://a/x"] /\
  analyze (VArr [VStr "http://b/y"]) st
  = (Ok (mkRequest "/urls" "analyze" [("links", VArr [VStr "http://b/y"])]),
     st).
Proof. split; reflexivity. Qed.

(** ** The aggregates *)

Lemma analyze_callback_aggregates res st :
  aggregates (snd (analyze_callback res st)) = aggregates st.
Proof. now rewrite analyze_callback_eq. Qed.

(** C2.  A fresh bucket receives an analysis with one torrent record of
    size 100 and billed bandwidth 7, and quotas 1000 and 2000: the callback
    returns, and the report that follows still has the four figures null. *)
Theorem analyze_leaves_report_unset :
  let res :=
    mkResults [] [mkRecord 100 7 [("url", VStr "http://a/x.torrent")]] [] []
              (VNum 1000) (VNum 2000) in
  let st := snd (analyze_callback res createBucket) in
  fst (analyze_callback res createBucket) = Ok tt /\
  map source_url (part "torrenturl" st) = [VStr "http://a/x.torrent"] /\
  Required_Space (getReport st) = VNull /\
  Bandwidth_to_be_deducted_from_quota (getReport st) = VNull /\
  Current_Available_Disk_Space (getReport st) = VNull /\
  Current_Available_Bandwidth (getReport st) = VNull.
Proof. repeat split. Qed.

(** ** Destructive replace *)

(** C3.  The callback of [analyze] always returns and leaves in [_links]
    the partitions of its response, whatever the bucket held; so after any
    history that ends with an analysis, and in particular after two
    analyses in a row, the bucket holds the locators of the last response
    only. *)
Theorem analyze_replaces_partitions (st : bucket) (res1 res2 : results)
    (cs : list call) :
  analyze_callback res2 st
  = (Ok tt, with_links (classified (api st) res2) st) /\
  _links (run [Analyzed res1; Analyzed res2] st) = classified (api st) res2 /\
  _links (step (Analyzed res2) (run cs st))
  = classified (api (run cs st)) res2.
Proof.
  split; [apply analyze_callback_eq|]. split.
  - unfold run. simpl. now rewrite !analyze_callback_eq.
  - simpl. now rewrite analyze_callback_eq.
Qed.

(** ** The request of [fetch] *)

(** C4, as stated, fails: with one single and one torrent locator the
    torrent URL is sent first. *)
Lemma fetch_order_counterexample :
  let st := run [Analyzed one_torrent_one_single] createBucket in
  fst (fetch st)
  = Ok (fetch_request [VStr "http://a/t.torrent"; VStr "http://a/s.bin"]) /\
  spec_fetch_order st = [VStr "http://a/s.bin"; VStr "http://a/t.torrent"] /\
  fst (fetch st) <> Ok (fetch_request (spec_fetch_order st)).
Proof. repeat split. discriminate. Qed.

(** C4, amended.  On every bucket a history can produce, [fetch] leaves the
    bucket as it is and sends the URLs of the multipart, then the torrent,
    then the single partition, each in insertion order, and nothing of the
    error partition. *)
Theorem fetch_sends_staged_in_property_order (st : bucket) :
  reachable st ->
  fetch st = (Ok (fetch_request (fetch_order st)), st).
Proof.
  intros R. apply reachable_well_formed in R. destruct R as [S Hm Ht Hs He].
  unfold fetch, fetch_order. unfold bind at 1. unfold read at 1.
  rewrite S at 1. cbn [staged shape String.eqb Ascii.eqb Bool.eqb].
  rewrite !collect_url_of_objects by assumption.
  unfold bind, lift, ret, fetch_request.
  now rewrite app_nil_r, !map_app.
Qed.

Lemma fetch_sends_staged_in_property_order_witness :
  let st := run [Analyzed one_torrent_one_single] createBucket in
  reachable st /\
  fetch st
  = (Ok (fetch_request [VStr "http://a/t.torrent"; VStr "http://a/s.bin"]),
     st).
Proof.
  split.
  - apply reach_step.
    apply (reach_new VApi VUndefined VUndefined VUndefined);
      try (now left); reflexivity.
  - apply (fetch_sends_staged_in_property_order
             (run [Analyzed one_torrent_one_single] createBucket)).
    apply reach_step.
    apply (reach_new VApi VUndefined VUndefined VUndefined);
      try (now left); reflexivity.
Defined.

(** ** [add] *)

Lemma added_arg a arg :
  accepted arg = true ->
  added a (arg_value arg) = map (locator a) (arg_urls arg).
Proof.
  destruct arg as [u|us]; simpl; intros H; unfold added; simpl.
  - now rewrite H.
  - now rewrite map_map.
Qed.

Lemma add_arg_ok arg st mp t s e :
  _links st = shape mp t s e -> accepted arg = true ->
  add (arg_value arg) st
  = (Ok (shape mp t (s ++ map (locator (api st)) (arg_urls arg)) e),
     with_links (shape mp t (s ++ map (locator (api st)) (arg_urls arg)) e) st).
Proof.
  intros H A.
  rewrite (surjective_pairing (add (arg_value arg) st)).
  rewrite (add_shape _ _ _ _ _ _ H), (add_outcome _ _ _ _ _ _ H).
  rewrite (added_arg _ _ A).
  destruct arg as [u|us]; simpl in *; [now rewrite A | reflexivity].
Qed.

Lemma add_all_ok args : forall st mp t s e,
  _links st = shape mp t s e -> forallb accepted args = true ->
  add_all (map arg_value args) st
  = (Ok tt,
     with_links
       (shape mp t (s ++ map (locator (api st)) (flat_map arg_urls args)) e)
       st).
Proof.
  unfold add_all.
  induction args as [|arg args IH]; intros st mp t s e H A; simpl.
  - unfold ret. rewrite app_nil_r, <- H. now rewrite with_links_same.
  - apply andb_true_iff in A as [A1 A2].
    unfold bind at 1. unfold bind at 1.
    rewrite (add_arg_ok arg st mp t s e H A1). unfold ret at 1.
    erewrite IH by (try reflexivity; exact A2).
    now rewrite with_links_twice, map_app, app_assoc.
Qed.

Lemma source_url_locator a us : map source_url (map (locator a) us) = map VStr us.
Proof. induction us as [|u us IH]; simpl; [|rewrite IH]; reflexivity. Qed.

(** C5, as stated, fails: the empty string, passed on its own, is refused
    and nothing is appended for it. *)
Lemma add_empty_string_counterexample :
  add (VStr "") createBucket = (Throw msg_add, createBucket) /\
  part "singleurl" (snd (add (VStr "") createBucket)) <> [locator VApi ""].
Proof. split; [reflexivity | discriminate]. Qed.

(** C5, amended.  On a bucket a history can produce, a sequence of [add]
    calls, each given a non-empty string or an array of strings, raises
    nothing and appends to the single partition one locator per string, in
    the order given, duplicates included, each with the string as its url;
    the other three partitions stay as they were. *)
Theorem add_appends_single_locators (st : bucket) (args : list add_arg) :
  reachable st ->
  forallb accepted args = true ->
  let urls := flat_map arg_urls args in
  let st' := snd (add_all (map arg_value args) st) in
  fst (add_all (map arg_value args) st) = Ok tt /\
  part "singleurl" st'
  = (part "singleurl" st ++ map (locator (api st)) urls)%list /\
  map source_url (part "singleurl" st')
  = (map source_url (part "singleurl" st) ++ map VStr urls)%list /\
  part "multiparturl" st' = part "multiparturl" st /\
  part "torrenturl" st' = part "torrenturl" st /\
  part "error" st' = part "error" st.
Proof.
  intros R A. cbv zeta.
  pose proof (wf_shape st (reachable_well_formed st R)) as S.
  rewrite (add_all_ok args st _ _ _ _ S A). cbn [fst snd].
  repeat split.
  cbn [part _links with_links shape lookup String.eqb Ascii.eqb Bool.eqb].
  now rewrite map_app, source_url_locator.
Qed.

Lemma add_appends_single_locators_witness :
  let args := [One "http://a/x"; Many ["http://b/y"; ""; "http://a/x"]] in
  reachable createBucket /\
  forallb accepted args = true /\
  part "singleurl" (snd (add_all (map arg_value args) createBucket))
  = [locator VApi "http://a/x"; locator VApi "http://b/y"; locator VApi "";
     locator VApi "http://a/x"].
Proof.
  split; [|split].
  - apply (reach_new VApi VUndefined VUndefined VUndefined);
      try (now left); reflexivity.
  - reflexivity.
  - apply (add_appends_single_locators createBucket
             [One "http://a/x"; Many ["http://b/y"; ""; "http://a/x"]]).
    + apply (reach_new VApi VUndefined VUndefined VUndefined);
        try (now left); reflexivity.
    + reflexivity.
Defined.

(** ** Invalid input *)

(** C6, as stated, fails: 0 is present and is not an array, yet [analyze]
    takes it for an absent argument and builds its request. *)
Lemma analyze_falsy_counterexample :
  isArray (VNum 0) = false /\
  analyze (VNum 0) createBucket
  = (Ok (mkRequest "/urls" "analyze" [("links", VArr [])]), createBucket) /\
  fst (analyze (VNum 0) createBucket) <> Throw msg_analyze.
Proof. repeat split. discriminate. Qed.

(** C6, amended.  For an argument that is not an array: [add] throws if it
    is not a string either, [analyze] throws if it is truthy; in both cases
    no request is built and the bucket is the one before the call. *)
Theorem invalid_input_raises (st : bucket) (v : value) :
  isArray v = false ->
  (String.eqb (typeof v) "string" = false ->
   add v st = (Throw msg_add, st)) /\
  (truthy v = true -> analyze v st = (Throw msg_analyze, st)).
Proof.
  intros A. split.
  - intros S. unfold add. rewrite S, A, !andb_false_r. reflexivity.
  - intros T. unfold analyze, js_or. rewrite T, A. reflexivity.
Qed.

Lemma invalid_input_raises_witness :
  isArray (VNum 5) = false /\
  add (VNum 5) createBucket = (Throw msg_add, createBucket) /\
  analyze (VNum 5) createBucket = (Throw msg_analyze, createBucket).
Proof.
  split; [reflexivity|].
  destruct (invalid_input_raises createBucket (VNum 5) eq_refl) as [A B].
  split; [apply A | apply B]; reflexivity.
Defined.

(** ** Filters *)

Lemma append_loop {A} (args : list A) : forall fs,
  fold_left (fun fs a => fs ++ [a])%list args fs = (fs ++ args)%list.
Proof.
  induction args as [|a args IH]; intros fs; simpl.
  - now rewrite app_nil_r.
  - now rewrite IH, <- app_assoc.
Qed.

Lemma keep_existsb f args :
  keep f args = negb (existsb (fun a => String.eqb (trim f) (trim a)) args).
Proof.
  induction args as [|a args IH]; simpl; [reflexivity|].
  now destruct (String.eqb (trim f) (trim a)).
Qed.

Lemma remove_loop args fs : forall nf,
  fold_left (fun nf f => if keep f args then (nf ++ [trim f])%list else nf)
            fs nf
  = (nf ++ map trim (filter (fun f => keep f args) fs))%list.
Proof.
  induction fs as [|f fs IH]; intros nf; simpl.
  - now rewrite app_nil_r.
  - rewrite IH. destruct (keep f args); simpl; [|reflexivity].
    now rewrite <- app_assoc.
Qed.

(** C7.  [addFilter("jazz, mp3", ["rock"])] is "jazz,mp3,rock" and
    [removeFilter("jazz,mp3,rock", ["mp3"])] is "jazz,rock".  In general
    [addFilter] joins with commas the trimmed tokens of the string followed
    by the trimmed additions, duplicates kept, and [removeFilter] joins the
    trimmed tokens, in order, whose trimmed form equals no trimmed removal. *)
Theorem filter_merge_and_removal :
  addFilter "jazz, mp3" ["rock"] = "jazz,mp3,rock" /\
  removeFilter "jazz,mp3,rock" ["mp3"] = "jazz,rock" /\
  addFilter "a, b ,a" ["b"; " a"] = "a,b,a,b,a" /\
  removeFilter "Jazz, jazz,mp3" [" jazz "] = "Jazz,mp3" /\
  (forall existing args,
      addFilter existing args
      = join_comma (map trim (split_comma existing ++ args))) /\
  (forall existing args,
      removeFilter existing args
      = join_comma
          (map trim
             (filter
                (fun f =>
                   negb (existsb (fun a => String.eqb (trim f) (trim a)) args))
                (split_comma existing)))).
Proof.
  repeat split.
  - intros f args. unfold addFilter. now rewrite append_loop.
  - intros f args. unfold removeFilter. rewrite remove_loop. simpl.
    f_equal. f_equal. apply filter_ext. intros a. apply keep_existsb.
Qed.

(** ** Frame of [add] and [fetch] *)

Lemma bind_keeps {A B} (m : M A) (f : A -> M B) :
  keeps_aggregates m -> (forall a, keeps_aggregates (f a)) ->
  keeps_aggregates (bind m f).
Proof.
  intros Hm Hf st. unfold bind. specialize (Hm st).
  destruct (m st) as [[a| | |] st']; simpl in *; try assumption.
  now rewrite Hf.
Qed.

Lemma for_each_keeps {A} (body : A -> M unit) l :
  (forall x, keeps_aggregates (body x)) -> keeps_aggregates (for_each body l).
Proof.
  intros H. induction l as [|x l IH]; simpl.
  - now intros st.
  - apply bind_keeps; auto.
Qed.

Lemma push_keeps key x : keeps_aggregates (push key x).
Proof. intros st. unfold push. now destruct (lookup key (_links st)). Qed.

Lemma read_keeps {A} (f : bucket -> A) : keeps_aggregates (read f).
Proof. now intros st. Qed.

Lemma lift_keeps {A} (o : outcome A) : keeps_aggregates (lift o).
Proof. now intros st. Qed.

Lemma add_keeps url : keeps_aggregates (add url).
Proof.
  unfold add. apply bind_keeps; [|intros; apply read_keeps].
  destruct (truthy url && String.eqb (typeof url) "string").
  - apply bind_keeps; [apply read_keeps | intros; apply push_keeps].
  - destruct (truthy url && isArray url).
    + apply for_each_keeps. intros u.
      apply bind_keeps; [apply read_keeps | intros; apply push_keeps].
    + apply lift_keeps.
Qed.

(** C8.  Whatever the bucket and the argument, an [add] call and a [fetch]
    call leave the required space, the paid bandwidth and the two quota
    snapshots as they were, also when they throw. *)
Theorem add_and_fetch_keep_aggregates (st : bucket) (url : value) :
  aggregates (snd (add url st)) = aggregates st /\
  aggregates (snd (fetch st)) = aggregates st.
Proof.
  split; [apply add_keeps | now rewrite fetch_state].
Qed.

(** ** The error partition *)

(** C9.  On every bucket a history can produce, [_links] has the
    properties multiparturl, torrenturl, singleurl and error and no other,
    so [getErrorUrls], which reads errorurl, returns undefined, while the
    report's Urls holds the error entries under error. *)
Theorem getErrorUrls_undefined (st : bucket) :
  reachable st ->
  getErrorUrls st = VUndefined /\
  keys (_links st) = ["multiparturl"; "torrenturl"; "singleurl"; "error"] /\
  links_get "error" (Urls (getReport st)) = VArr (part "error" st).
Proof.
  intros R. pose proof (wf_shape st (reachable_well_formed st R)) as S.
  unfold getErrorUrls, getReport, Urls. rewrite S. repeat split.
Qed.

Lemma getErrorUrls_undefined_witness :
  let st := run [Analyzed one_error] createBucket in
  reachable st /\
  getErrorUrls st = VUndefined /\
  links_get "error" (Urls (getReport st))
  = VArr [VObj (Url (VObj [("url", VStr "http://a/bad");
                           ("error", VStr "not found")]) None)].
Proof.
  assert (R : reachable (run [Analyzed one_error] createBucket)).
  { apply reach_step.
    apply (reach_new VApi VUndefined VUndefined VUndefined);
      try (now left); reflexivity. }
  split; [exact R|].
  destruct (getErrorUrls_undefined _ R) as (E & _ & U).
  split; [exact E | exact U].
Defined.

(** C10.  After the callback of [analyze], the error partition holds, for
    each record of the response's error list, an object whose only
    properties are getApi and toString: its url, name and error are
    undefined, its toString returns undefined, and the record is what its
    getApi returns. *)
Theorem error_entries_carry_no_fields (st : bucket) (res : results) :
  part "error" (snd (analyze_callback res st))
  = map (fun e => VObj [("getApi", VGetApi e); ("toString", VUrlToString)])
        (items_error res) /\
  (forall e : value,
      Url e None = [("getApi", VGetApi e); ("toString", VUrlToString)] /\
      get "url" (Url e None) = VUndefined /\
      get "name" (Url e None) = VUndefined /\
      get "error" (Url e None) = VUndefined /\
      js_toString (VObj (Url e None)) = Ok VUndefined /\
      call_getApi (Url e None) = Ok e).
Proof.
  split.
  - now rewrite analyze_callback_eq.
  - intros e. repeat split.
Qed.

(** ** [trim] *)

Lemma ltrim_head s : starts_with_space (ltrim s) = false.
Proof.
  induction s as [|c s IH]; simpl; [reflexivity|].
  destruct (is_space c) eqn:E; [exact IH | simpl; exact E].
Qed.

Lemma ltrim_fixed s : starts_with_space s = false -> ltrim s = s.
Proof. destruct s as [|c s]; simpl; [reflexivity | now intros ->]. Qed.

Lemma rtrim_head s :
  starts_with_space s = false -> starts_with_space (rtrim s) = false.
Proof.
  destruct s as [|c s]; simpl; [reflexivity|].
  intros E. rewrite E. simpl. exact E.
Qed.

Lemma rtrim_tail s : ends_with_space (rtrim s) = false.
Proof.
  induction s as [|c s IH]; simpl; [reflexivity|].
  destruct (rtrim s) as [|d r] eqn:R.
  - simpl. rewrite andb_true_r. destruct (is_space c) eqn:E; simpl; auto.
  - simpl. rewrite andb_false_r. simpl in *. exact IH.
Qed.

Lemma rtrim_fixed s : ends_with_space s = false -> rtrim s = s.
Proof.
  induction s as [|c s IH]; simpl; [reflexivity|].
  destruct s as [|d s'].
  - simpl. intros ->. reflexivity.
  - intros E. rewrite (IH E). simpl. now rewrite andb_false_r.
Qed.

Lemma trim_fixed s :
  starts_with_space s = false -> ends_with_space s = false -> trim s = s.
Proof.
  intros Hs He. unfold trim. now rewrite (ltrim_fixed s Hs), (rtrim_fixed s He).
Qed.

Lemma trim_outer s :
  starts_with_space (trim s) = false /\ ends_with_space (trim s) = false.
Proof.
  unfold trim. split; [apply rtrim_head, ltrim_head | apply rtrim_tail].
Qed.

(** X1.  [trim] returns a string that neither starts nor ends with a
    whitespace character, leaves such a string as it is, and so is
    idempotent; a string of whitespace only becomes the empty string. *)
Theorem trim_strips_outer_whitespace (s : string) :
  starts_with_space (trim s) = false /\
  ends_with_space (trim s) = false /\
  trim (trim s) = trim s /\
  (starts_with_space s = false -> ends_with_space s = false -> trim s = s) /\
  (forallb is_space (list_ascii_of_string s) = true -> trim s = "").
Proof.
  destruct (trim_outer s) as [Hs He].
  repeat split; auto using trim_fixed.
  clear Hs He. intros W. unfold trim.
  assert (L : ltrim s = "").
  { induction s as [|c s IH]; simpl in *; [reflexivity|].
    apply andb_true_iff in W as [E W]. rewrite E. auto. }
  now rewrite L.
Qed.

Lemma trim_strips_outer_whitespace_witness :
  trim (String.append "  a b" (String (ascii_of_nat 9) "")) = "a b" /\
  trim "a b" = "a b" /\
  trim "   " = "".
Proof.
  split; [reflexivity|]. split.
  - apply (trim_strips_outer_whitespace "a b"); reflexivity.
  - apply (trim_strips_outer_whitespace "   "); reflexivity.
Defined.

(** ** Splitting and joining *)

Lemma split_comma_nonempty s : split_comma s <> [].
Proof.
  destruct s as [|c s]; simpl; [discriminate|].
  destruct (Ascii.eqb c ","%char); [discriminate|].
  destruct (split_comma s); discriminate.
Qed.

Lemma split_comma_tokens s : forallb no_comma (split_comma s) = true.
Proof.
  induction s as [|c s IH]; simpl; [reflexivity|].
  destruct (Ascii.eqb c ","%char) eqn:E; simpl; [exact IH|].
  destruct (split_comma s) as [|t ts]; simpl in *.
  - unfold no_comma. simpl. now rewrite E.
  - unfold no_comma in *. simpl. now rewrite E.
Qed.

Lemma join_split s : join_comma (split_comma s) = s.
Proof.
  induction s as [|c s IH]; simpl; [reflexivity|].
  pose proof (split_comma_nonempty s) as N.
  destruct (Ascii.eqb c ","%char) eqn:E.
  - apply Ascii.eqb_eq in E. subst c.
    destruct (split_comma s) as [|t ts]; [contradiction|].
    simpl in *. now rewrite IH.
  - destruct (split_comma s) as [|t ts]; [contradiction|].
    destruct ts; simpl in *; now rewrite <- IH.
Qed.

Lemma split_no_comma t : no_comma t = true -> split_comma t = [t].
Proof.
  unfold no_comma. induction t as [|c t IH]; simpl; [reflexivity|].
  intros H. apply andb_true_iff in H as [C H].
  apply negb_true_iff in C. rewrite C. now rewrite (IH H).
Qed.

Lemma split_app_comma t rest :
  no_comma t = true ->
  split_comma (t ++ String ","%char rest) = t :: split_comma rest.
Proof.
  unfold no_comma. induction t as [|c t IH]; simpl; [reflexivity|].
  intros H. apply andb_true_iff in H as [C H].
  apply negb_true_iff in C. rewrite C. now rewrite (IH H).
Qed.

Lemma split_join ts :
  ts <> [] -> forallb no_comma ts = true -> split_comma (join_comma ts) = ts.
Proof.
  induction ts as [|t ts IH]; [contradiction|]. intros _ H.
  simpl in H. apply andb_true_iff in H as [Ht Hts].
  destruct ts as [|t' ts'].
  - simpl. now apply split_no_comma.
  - change (join_comma (t :: t' :: ts'))
      with (t ++ String ","%char (join_comma (t' :: ts'))).
    rewrite (split_app_comma _ _ Ht). f_equal. apply IH; [discriminate|exact Hts].
Qed.

Lemma no_comma_ltrim s : no_comma s = true -> no_comma (ltrim s) = true.
Proof.
  unfold no_comma. induction s as [|c s IH]; simpl; [reflexivity|].
  intros H. destruct (is_space c); [|exact H].
  apply andb_true_iff in H as [_ H]. auto.
Qed.

Lemma no_comma_rtrim s : no_comma s = true -> no_comma (rtrim s) = true.
Proof.
  unfold no_comma. induction s as [|c s IH]; simpl; [reflexivity|].
  intros H. apply andb_true_iff in H as [C H].
  destruct (is_space c && String.eqb (rtrim s) ""); [reflexivity|].
  simpl. now rewrite C, (IH H).
Qed.

Lemma no_comma_trim s : no_comma s = true -> no_comma (trim s) = true.
Proof. intros H. unfold trim. now apply no_comma_rtrim, no_comma_ltrim. Qed.

Lemma no_comma_map_trim ts :
  forallb no_comma ts = true -> forallb no_comma (map trim ts) = true.
Proof.
  induction ts as [|t ts IH]; simpl; [reflexivity|].
  intros H. apply andb_true_iff in H as [Ht H].
  now rewrite (no_comma_trim t Ht), (IH H).
Qed.

Lemma trim_idempotent s : trim (trim s) = trim s.
Proof. destruct (trim_outer s). now apply trim_fixed. Qed.

Lemma map_trim_idempotent ts : map trim (map trim ts) = map trim ts.
Proof.
  rewrite map_map. apply map_ext. intros t. apply trim_idempotent.
Qed.

Lemma map_trim_fixed ts : forallb trimmed ts = true -> map trim ts = ts.
Proof.
  induction ts as [|t ts IH]; simpl; [reflexivity|].
  intros H. apply andb_true_iff in H as [Ht H]. rewrite (IH H).
  unfold trimmed in Ht. apply andb_true_iff in Ht as [A B].
  apply negb_true_iff in A, B. now rewrite (trim_fixed t A B).
Qed.

(** ** [addFilter] and [removeFilter] as list functions *)

Lemma addFilter_eq existing args :
  addFilter existing args = join_comma (map trim (split_comma existing ++ args)).
Proof. unfold addFilter. now rewrite append_loop. Qed.

Lemma removeFilter_eq existing args :
  removeFilter existing args
  = join_comma (map trim (filter (fun f => keep f args) (split_comma existing))).
Proof. unfold removeFilter. now rewrite remove_loop. Qed.

Lemma tokens_of_addFilter existing args :
  forallb no_comma args = true ->
  split_comma (addFilter existing args)
  = map trim (split_comma existing ++ args).
Proof.
  intros H. rewrite addFilter_eq. apply split_join.
  - pose proof (split_comma_nonempty existing).
    destruct (split_comma existing); [contradiction | discriminate].
  - apply no_comma_map_trim. rewrite forallb_app, H.
    now rewrite split_comma_tokens.
Qed.

Lemma keep_trim t args : keep (trim t) args = keep t args.
Proof.
  induction args as [|a args IH]; simpl; [reflexivity|].
  now rewrite trim_idempotent, IH.
Qed.

Lemma keep_removed a args : In a args -> keep (trim a) args = false.
Proof.
  induction args as [|b args IH]; simpl; [contradiction|].
  rewrite trim_idempotent. intros [-> | H].
  - now rewrite String.eqb_refl.
  - destruct (String.eqb (trim a) (trim b)); [reflexivity|].
    rewrite <- (IH H). now rewrite keep_trim.
Qed.

Lemma filter_keep_map_trim args ts :
  filter (fun f => keep f args) (map trim ts)
  = map trim (filter (fun f => keep f args) ts).
Proof.
  induction ts as [|t ts IH]; simpl; [reflexivity|].
  rewrite keep_trim. destruct (keep t args); simpl; now rewrite IH.
Qed.

Lemma filter_keep_removed args : forall bs,
  (forall b, In b bs -> In b args) ->
  filter (fun f => keep f args) (map trim bs) = [].
Proof.
  induction bs as [|b bs IH]; simpl; intros H; [reflexivity|].
  rewrite (keep_removed b args) by auto. auto.
Qed.

(** X2.  A filter string whose comma-separated tokens carry no outer
    whitespace is returned unchanged by [addFilter] with nothing to add and
    by [removeFilter] with nothing to remove. *)
Theorem filters_fix_normal_strings (existing : string) :
  forallb trimmed (split_comma existing) = true ->
  addFilter existing [] = existing /\ removeFilter existing [] = existing.
Proof.
  intros H. rewrite addFilter_eq, removeFilter_eq, app_nil_r. simpl.
  assert (F : forall ts : list string, filter (fun _ => true) ts = ts).
  { induction ts as [|t ts IH]; simpl; [reflexivity | now rewrite IH]. }
  rewrite F, (map_trim_fixed _ H). split; apply join_split.
Qed.

Lemma filters_fix_normal_strings_witness :
  forallb trimmed (split_comma "jazz,smooth jazz,,mp3") = true /\
  addFilter "jazz,smooth jazz,,mp3" [] = "jazz,smooth jazz,,mp3" /\
  removeFilter "jazz,smooth jazz,,mp3" [] = "jazz,smooth jazz,,mp3".
Proof.
  split; [reflexivity|].
  apply (filters_fix_normal_strings "jazz,smooth jazz,,mp3"). reflexivity.
Defined.

(** X3.  When the additions of a first [addFilter] contain no comma, a
    second [addFilter] on its result gives what one [addFilter] with both
    lists of additions gives; in particular the result of [addFilter] is
    left unchanged by [addFilter] with nothing to add. *)
Theorem addFilter_twice (existing : string) (a b : list string) :
  forallb no_comma a = true ->
  addFilter (addFilter existing a) b = addFilter existing (a ++ b) /\
  addFilter (addFilter existing a) [] = addFilter existing a.
Proof.
  intros H.
  assert (G : forall c, addFilter (addFilter existing a) c
                        = addFilter existing (a ++ c)).
  { intros c. rewrite (addFilter_eq (addFilter existing a)).
    rewrite (tokens_of_addFilter existing a H), addFilter_eq.
    now rewrite !map_app, map_trim_idempotent, map_trim_idempotent,
      <- app_assoc. }
  split; [apply G|]. now rewrite G, app_nil_r.
Qed.

Lemma addFilter_twice_witness :
  forallb no_comma [" rock"; "pop "] = true /\
  addFilter (addFilter "jazz, mp3" [" rock"; "pop "]) ["jazz"]
  = "jazz,mp3,rock,pop,jazz".
Proof.
  split; [reflexivity|].
  destruct (addFilter_twice "jazz, mp3" [" rock"; "pop "] ["jazz"] eq_refl)
    as [E _].
  rewrite E. reflexivity.
Defined.

Lemma remove_added existing args :
  forallb no_comma args = true ->
  removeFilter (addFilter existing args) args = removeFilter existing args.
Proof.
  intros H. rewrite (removeFilter_eq (addFilter existing args)).
  rewrite (tokens_of_addFilter existing args H), map_app, filter_app.
  rewrite (filter_keep_removed args args) by auto.
  rewrite app_nil_r, filter_keep_map_trim, map_trim_idempotent.
  symmetry. apply removeFilter_eq.
Qed.

(** X4.  When the keywords contain no comma, removing them from the result
    of adding them gives what removing them from the original string
    gives: nothing of what was added stays. *)
Theorem removeFilter_undoes_addFilter (existing : string) (args : list string) :
  forallb no_comma args = true ->
  removeFilter (addFilter existing args) args = removeFilter existing args.
Proof. apply remove_added. Qed.

Lemma removeFilter_undoes_addFilter_witness :
  forallb no_comma ["rock"; " mp3"] = true /\
  removeFilter (addFilter "jazz, mp3" ["rock"; " mp3"]) ["rock"; " mp3"]
  = "jazz".
Proof.
  split; [reflexivity|].
  rewrite (removeFilter_undoes_addFilter "jazz, mp3" ["rock"; " mp3"] eq_refl).
  reflexivity.
Defined.

Lemma filter_twice {A} (p : A -> bool) l : filter p (filter p l) = filter p l.
Proof.
  induction l as [|x l IH]; simpl; [reflexivity|].
  destruct (p x) eqn:E; simpl; [rewrite E|]; now rewrite IH.
Qed.

(** X5.  [removeFilter] is idempotent, and its result is either the empty
    string or a string none of whose tokens is one of the trimmed
    keywords to remove. *)
Theorem removeFilter_removes (existing : string) (args : list string) :
  removeFilter (removeFilter existing args) args = removeFilter existing args /\
  (removeFilter existing args = "" \/
   forall t, In t (split_comma (removeFilter existing args)) ->
             ~ In t (map trim args)).
Proof.
  rewrite (removeFilter_eq existing args).
  rewrite <- filter_keep_map_trim.
  set (K := filter (fun f => keep f args) (map trim (split_comma existing))).
  assert (F1 : filter (fun f => keep f args) K = K)
    by (unfold K; apply filter_twice).
  assert (F2 : map trim K = K)
    by (unfold K; rewrite filter_keep_map_trim; apply map_trim_idempotent).
  assert (C : forallb no_comma K = true).
  { unfold K. apply forallb_forall. intros t Ht.
    apply filter_In in Ht as [Ht _].
    pose proof (no_comma_map_trim _ (split_comma_tokens existing)) as N.
    rewrite forallb_forall in N. auto. }
  assert (R : forall t, In t K -> ~ In t (map trim args)).
  { intros t Ht Hin. unfold K in Ht. apply filter_In in Ht as [_ Kt].
    apply in_map_iff in Hin as (a & <- & Ha).
    now rewrite (keep_removed a args Ha) in Kt. }
  clearbody K. destruct K as [|k K'].
  - split; [|now left]. simpl. rewrite removeFilter_eq. simpl.
    destruct (keep "" args); reflexivity.
  - assert (S : split_comma (join_comma (k :: K')) = k :: K')
      by (apply split_join; [discriminate | exact C]).
    split.
    + now rewrite removeFilter_eq, S, F1, F2.
    + right. now rewrite S.
Qed.

(** X6.  On the empty filter string [addFilter] keeps the empty token the
    split gives: the result of adding at least one keyword starts with a
    comma. *)
Theorem addFilter_empty_existing (a : string) (args : list string) :
  addFilter "" (a :: args) = String ","%char (join_comma (map trim (a :: args)))
  /\ split_comma "" = [""]
  /\ addFilter "" [] = "".
Proof. rewrite addFilter_eq. repeat split. Qed.

(** ** Property reads after property writes *)

Lemma lookup_set_prop_same {A} k (v : A) o : lookup k (set_prop k v o) = Some v.
Proof.
  induction o as [|[k' v'] o IH]; simpl.
  - now rewrite String.eqb_refl.
  - destruct (String.eqb k k') eqn:E; simpl; now rewrite E.
Qed.

Lemma lookup_set_prop_other {A} k k' (v : A) o :
  k' <> k -> lookup k' (set_prop k v o) = lookup k' o.
Proof.
  intros N. induction o as [|[k0 v0] o IH]; simpl.
  - apply String.eqb_neq in N. now rewrite N.
  - destruct (String.eqb k k0) eqn:E; simpl.
    + apply String.eqb_eq in E. subst k0.
      apply String.eqb_neq in N. now rewrite N.
    + now rewrite IH.
Qed.

Lemma get_url_BaseApiObj a o : get "url" (BaseApiObj a (Some o)) = get "url" o.
Proof.
  unfold get, BaseApiObj, BaseObj.
  now rewrite lookup_set_prop_other by discriminate.
Qed.

Lemma get_url_Url a o : get "url" (Url a (Some o)) = get "url" o.
Proof.
  unfold Url. unfold get at 1.
  rewrite lookup_set_prop_other by discriminate. apply get_url_BaseApiObj.
Qed.

(** ** The constructor *)

Lemma isArray_default v : isArray (js_or v (VArr [])) = negb (not_an_array v).
Proof.
  unfold js_or, not_an_array. destruct (truthy v); simpl; [|reflexivity].
  now rewrite negb_involutive.
Qed.

Lemma default_is_array v :
  not_an_array v = false ->
  js_or v (VArr []) = VArr (elems_of (js_or v (VArr []))).
Proof.
  intros H. pose proof (isArray_default v) as I. rewrite H in I.
  destruct (js_or v (VArr [])); try discriminate. reflexivity.
Qed.

(** X7.  The constructor puts the elements of its three arguments, absent
    ones counting as empty, in the single, torrent and multipart partitions
    and leaves the error partition empty and the four figures null; when
    one of the arguments is truthy and not an array it throws before
    anything is stored. *)
Theorem UrlBucket_seeds (a s t m : value) :
  (not_an_array s || not_an_array t || not_an_array m = false ->
   UrlBucket a s t m
   = (Ok tt,
      with_links (shape (elems_of (js_or m (VArr [])))
                        (elems_of (js_or t (VArr [])))
                        (elems_of (js_or s (VArr []))) [])
                 (initial a))) /\
  (not_an_array s || not_an_array t || not_an_array m = true ->
   UrlBucket a s t m = (Throw msg_add_arrays, initial a)).
Proof.
  split; intros H.
  - apply orb_false_iff in H as [H Hm]. apply orb_false_iff in H as [Hs Ht].
    unfold UrlBucket. rewrite _add_defaults.
    rewrite (default_is_array s Hs), (default_is_array t Ht),
      (default_is_array m Hm).
    change (js_or VUndefined (VArr [])) with (VArr []).
    fold (initial a). erewrite _add_arrays by reflexivity.
    reflexivity.
  - unfold UrlBucket, _add. cbv zeta. unfold bind at 1.
    cbn [for_each]. unfold bind.
    rewrite !isArray_default.
    destruct (not_an_array s); [reflexivity|].
    destruct (not_an_array t); [reflexivity|].
    destruct (not_an_array m); [reflexivity|discriminate].
Qed.

Lemma UrlBucket_seeds_witness :
  UrlBucket VApi (VArr [VObj [("url", VStr "http://a/x")]]) VUndefined
            (VArr [VNum 1])
  = (Ok tt,
     with_links (shape [VNum 1] [] [VObj [("url", VStr "http://a/x")]] [])
                (initial VApi)) /\
  UrlBucket VApi (VStr "http://a/x") VUndefined VUndefined
  = (Throw msg_add_arrays, initial VApi).
Proof.
  split.
  - apply (UrlBucket_seeds VApi (VArr [VObj [("url", VStr "http://a/x")]])
             VUndefined (VArr [VNum 1])). reflexivity.
  - apply (UrlBucket_seeds VApi (VStr "http://a/x") VUndefined VUndefined).
    reflexivity.
Defined.

(** ** The figures of the report *)

Lemma _add_no_info_keeps s t m e : keeps_aggregates (_add s t m e None).
Proof.
  unfold _add. cbv zeta.
  apply bind_keeps.
  { apply for_each_keeps. intros l. destruct (isArray l); now intros st. }
  intros _. repeat (apply bind_keeps; [apply for_each_keeps, push_keeps|intros _]).
  apply bind_keeps; [apply lift_keeps|]. intros b.
  destruct b; intros st; reflexivity.
Qed.

Lemma step_keeps_aggregates c st : aggregates (step c st) = aggregates st.
Proof.
  destruct c; simpl.
  - apply add_keeps.
  - now rewrite fetch_state.
  - now rewrite analyze_state.
  - apply analyze_callback_aggregates.
Qed.

(** X8.  On every bucket a history can produce, whatever was added,
    analyzed or fetched, the required space, the paid bandwidth and the two
    quota snapshots are null. *)
Theorem report_figures_stay_null (st : bucket) :
  reachable st ->
  getReqSpace st = VNull /\ getPaidBw st = VNull /\
  Current_Available_Disk_Space (getReport st) = VNull /\
  Current_Available_Bandwidth (getReport st) = VNull.
Proof.
  intros R.
  enough (E : aggregates st = (VNull, VNull, VNull, VNull)).
  { unfold aggregates in E. injection E as E1 E2 E3 E4. now repeat split. }
  induction R as [a s t m st _ _ _ E | c st _ IH].
  - pose proof (_add_no_info_keeps s t m VUndefined (initial a)) as K.
    unfold UrlBucket in E. fold (initial a) in E. rewrite E in K. exact K.
  - now rewrite step_keeps_aggregates.
Qed.

Lemma report_figures_stay_null_witness :
  let st :=
    run [Add (VStr "http://a/x"); Analyze VUndefined;
         Analyzed one_torrent_one_single; Fetch] createBucket in
  reachable st /\ getReqSpace st = VNull /\ getPaidBw st = VNull.
Proof.
  assert (R : reachable
                (run [Add (VStr "http://a/x"); Analyze VUndefined;
                      Analyzed one_torrent_one_single; Fetch] createBucket)).
  { apply reachable_run.
    apply (reach_new VApi VUndefined VUndefined VUndefined);
      try (now left); reflexivity. }
  split; [exact R|].
  destruct (report_figures_stay_null _ R) as (A & B & _).
  split; [exact A | exact B].
Defined.

(** ** [fetch] after an analysis *)

Lemma fetch_well_formed st :
  well_formed st -> fetch st = (Ok (fetch_request (fetch_order st)), st).
Proof.
  intros [S Hm Ht Hs He].
  unfold fetch, fetch_order. unfold bind at 1. unfold read at 1.
  rewrite S at 1. cbn [staged shape String.eqb Ascii.eqb Bool.eqb].
  rewrite !collect_url_of_objects by assumption.
  unfold bind, lift, ret, fetch_request.
  now rewrite app_nil_r, !map_app.
Qed.

Lemma urls_of_multipart_objects a rs :
  map source_url (multipart_objects a rs)
  = flat_map (fun r => map (get "url") (m_parts r)) rs.
Proof.
  unfold multipart_objects.
  induction rs as [|r rs IH]; simpl; [reflexivity|].
  rewrite map_app, IH. f_equal.
  rewrite map_map. apply map_ext. intros p. simpl.
  apply get_url_BaseApiObj.
Qed.

Lemma urls_of_torrent_objects a rs :
  map source_url (record_objects (Torrent a) rs)
  = map (fun r => get "url" (obj_of_record r)) rs.
Proof.
  unfold record_objects. rewrite map_map. apply map_ext. intros r. simpl.
  apply get_url_BaseApiObj.
Qed.

Lemma urls_of_url_objects a rs :
  map source_url (record_objects (Url a) rs)
  = map (fun r => get "url" (obj_of_record r)) rs.
Proof.
  unfold record_objects. rewrite map_map. apply map_ext. intros r. simpl.
  apply get_url_Url.
Qed.

(** X9.  Whatever the bucket held, a [fetch] that follows the callback of
    [analyze] sends the url of every part of every multipart record, then
    of every torrent record, then of every single record of that response,
    and nothing for its error records. *)
Theorem fetch_after_analysis (st : bucket) (res : results) :
  fetch (step (Analyzed res) st)
  = (Ok (fetch_request (dispatched res)), step (Analyzed res) st).
Proof.
  simpl. rewrite analyze_callback_eq. cbn [snd].
  destruct (objects_classified (api st) res) as (Om & Ot & Os & Oe).
  rewrite fetch_well_formed by now apply well_formed_shape.
  unfold fetch_order, dispatched.
  cbn [part _links with_links classified shape lookup String.eqb Ascii.eqb
       Bool.eqb].
  rewrite !map_app, urls_of_multipart_objects, urls_of_torrent_objects,
    urls_of_url_objects. reflexivity.
Qed.

(** ** Bucket contents passed back to [analyze] *)

Lemma is_url_object_Url a o : is_url_object (VObj (Url a o)) = true.
Proof.
  unfold is_url_object, Url. now rewrite lookup_set_prop_same.
Qed.

Lemma url_objects_added a url : forallb is_url_object (added a url) = true.
Proof.
  unfold added.
  destruct (truthy url && String.eqb (typeof url) "string").
  - cbn [forallb]. now rewrite is_url_object_Url.
  - destruct (truthy url && isArray url); [|reflexivity].
    induction (elems_of url) as [|u us IH]; [reflexivity|].
    cbn [map forallb]. now rewrite is_url_object_Url.
Qed.

Lemma url_objects_records a rs :
  forallb is_url_object (record_objects (Url a) rs) = true.
Proof.
  unfold record_objects. induction rs as [|r rs IH]; [reflexivity|].
  cbn [map forallb]. now rewrite is_url_object_Url.
Qed.

Lemma step_url_objects c st :
  well_formed st ->
  forallb is_url_object (part "singleurl" st) = true ->
  forallb is_url_object (part "singleurl" (step c st)) = true.
Proof.
  intros W H. destruct c as [url| |links|res]; simpl.
  - rewrite (add_shape url st _ _ _ _ (wf_shape st W)).
    change (forallb is_url_object
              (part "singleurl" st ++ added (api st) url) = true).
    now rewrite forallb_app, H, url_objects_added.
  - now rewrite fetch_state.
  - now rewrite analyze_state.
  - rewrite analyze_callback_eq. apply url_objects_records.
Qed.

Lemma run_url_objects cs : forall st,
  well_formed st ->
  forallb is_url_object (part "singleurl" st) = true ->
  well_formed (run cs st) /\
  forallb is_url_object (part "singleurl" (run cs st)) = true.
Proof.
  unfold run. induction cs as [|c cs IH]; intros st W H; simpl.
  - now split.
  - apply IH.
    + now apply step_well_formed.
    + now apply step_url_objects.
Qed.

Lemma collect_toString_url_objects l :
  forallb is_url_object l = true -> collect js_toString l = Ok (map source_url l).
Proof.
  induction l as [|v l IH]; simpl; [reflexivity|].
  intros H. apply andb_true_iff in H as [Hv Hl]. rewrite (IH Hl).
  destruct v; try discriminate. simpl in *.
  destruct (lookup "toString" props) as [[]|]; try discriminate. reflexivity.
Qed.

Lemma analyze_array_well_formed l urls st :
  well_formed st -> collect js_toString l = Ok urls ->
  analyze (VArr l) st = (Ok (analyze_request urls), st).
Proof.
  intros W C. rewrite analyze_array.
  unfold bind at 1. unfold lift at 1. rewrite C.
  unfold bind, read, lift, ret. rewrite (analyze_inner_adds_nothing st W).
  unfold analyze_request. now rewrite app_nil_r.
Qed.

Lemma links_get_part k st :
  well_formed st -> In k (keys fresh_links) ->
  links_get k (_links st) = VArr (part k st).
Proof.
  intros W H. unfold links_get, part. rewrite (wf_shape st W).
  simpl in H. destruct H as [<-|[<-|[<-|[<-|[]]]]]; reflexivity.
Qed.

(** X10.  On a bucket made by [createBucket] and any history, handing the
    array [getSingleUrls()] returns to [analyze] builds a request with the
    url of every locator of the single partition, in order. *)
Theorem analyze_of_single_urls (cs : list call) :
  let st := run cs createBucket in
  analyze (getSingleUrls st) st
  = (Ok (analyze_request (map source_url (part "singleurl" st))), st).
Proof.
  cbv zeta.
  destruct (run_url_objects cs createBucket
              (reachable_well_formed _ createBucket_reachable) eq_refl)
    as [W U].
  unfold getSingleUrls. rewrite (links_get_part "singleurl" _ W) by (simpl; auto).
  apply (analyze_array_well_formed _ _ _ W).
  now apply collect_toString_url_objects.
Qed.

Lemma collect_toString_torrents a rs :
  forallb plain rs = true ->
  collect js_toString (record_objects (Torrent a) rs)
  = Ok (map (fun _ => VStr "[object Object]") rs).
Proof.
  unfold record_objects. induction rs as [|r rs IH]; simpl; [reflexivity|].
  intros H. apply andb_true_iff in H as [Hr Hrs]. rewrite (IH Hrs).
  unfold Torrent, BaseApiObj, BaseObj.
  rewrite lookup_set_prop_other by discriminate.
  unfold plain in Hr. simpl.
  now destruct (lookup "toString" (r_rest r)).
Qed.

(** X11.  After an analysis whose torrent records have no property named
    toString, handing the array [getTorrentUrls()] returns to [analyze]
    builds a request with the string "[object Object]" once per torrent
    locator: a torrent locator has no toString of its own, and its url is
    not sent. *)
Theorem analyze_of_torrent_urls (st : bucket) (res : results) :
  forallb plain (items_torrent res) = true ->
  let st' := step (Analyzed res) st in
  analyze (getTorrentUrls st') st'
  = (Ok (analyze_request
           (map (fun _ => VStr "[object Object]") (items_torrent res))),
     st').
Proof.
  intros P. cbv zeta. simpl. rewrite analyze_callback_eq. cbn [snd].
  destruct (objects_classified (api st) res) as (Om & Ot & Os & Oe).
  assert (W : well_formed (with_links (classified (api st) res) st))
    by now apply well_formed_shape.
  unfold getTorrentUrls.
  rewrite (links_get_part "torrenturl" _ W) by (simpl; auto).
  apply (analyze_array_well_formed _ _ _ W).
  now apply collect_toString_torrents.
Qed.

Lemma analyze_of_torrent_urls_witness :
  forallb plain (items_torrent one_torrent_one_single) = true /\
  (let st' := step (Analyzed one_torrent_one_single) createBucket in
   map source_url (part "torrenturl" st') = [VStr "http://a/t.torrent"] /\
   analyze (getTorrentUrls st') st'
   = (Ok (analyze_request [VStr "[object Object]"]), st')).
Proof.
  split; [reflexivity|]. split; [reflexivity|].
  apply (analyze_of_torrent_urls createBucket one_torrent_one_single).
  reflexivity.
Defined.

(** ** [extractUrls] *)

Lemma source_url_added_array a l :
  map source_url (map (fun u => VObj (Url a (Some [("url", u)]))) l) = l.
Proof.
  induction l as [|u l IH]; simpl; [reflexivity|]. now rewrite IH.
Qed.

(** X12.  When every record [extractUrls] receives is an object, its
    callback gets the url of each record, in order; adding that list to a
    bucket a history can produce never throws, even when the list is
    empty, and appends one locator per record with that url to the single
    partition. *)
Theorem extracted_urls_are_added (st : bucket) (records : list value) :
  reachable st ->
  forallb is_object records = true ->
  let urls := map source_url records in
  let st' := snd (add (VArr urls) st) in
  extractUrls_callback records = Ok urls /\
  fst (add (VArr urls) st) = Ok (_links st') /\
  map source_url (part "singleurl" st')
  = (map source_url (part "singleurl" st) ++ urls)%list /\
  List.length (part "singleurl" st')
  = (List.length (part "singleurl" st) + List.length records)%nat.
Proof.
  intros R O. cbv zeta. apply reachable_well_formed in R.
  pose proof (wf_shape st R) as S.
  split; [now apply collect_url_of_objects|].
  rewrite (add_shape _ _ _ _ _ _ S), (add_outcome _ _ _ _ _ _ S).
  unfold added. cbn [truthy typeof isArray instanceofArray String.eqb
                     Ascii.eqb Bool.eqb andb orb elems_of].
  repeat split.
  - change (map source_url
              (part "singleurl" st ++
               map (fun u => VObj (Url (api st) (Some [("url", u)])))
                   (map source_url records))
            = (map source_url (part "singleurl" st)
               ++ map source_url records)%list).
    now rewrite map_app, source_url_added_array.
  - change (List.length
              (part "singleurl" st ++
               map (fun u => VObj (Url (api st) (Some [("url", u)])))
                   (map source_url records))
            = (List.length (part "singleurl" st) + List.length records)%nat).
    now rewrite length_app, !length_map.
Qed.

Lemma extracted_urls_are_added_witness :
  let records := [VObj [("url", VStr "http://a/x")];
                  VObj [("url", VStr "http://b/y")]] in
  reachable createBucket /\
  forallb is_object records = true /\
  extractUrls_callback records = Ok [VStr "http://a/x"; VStr "http://b/y"] /\
  map source_url
      (part "singleurl"
         (snd (add (VArr [VStr "http://a/x"; VStr "http://b/y"]) createBucket)))
  = [VStr "http://a/x"; VStr "http://b/y"].
Proof.
  assert (R : reachable createBucket).
  { apply (reach_new VApi VUndefined VUndefined VUndefined);
      try (now left); reflexivity. }
  split; [exact R|]. split; [reflexivity|].
  destruct (extracted_urls_are_added createBucket
              [VObj [("url", VStr "http://a/x")];
               VObj [("url", VStr "http://b/y")]] R eq_refl)
    as (A & _ & B & _).
  split; [exact A | exact B].
Defined.

(** ** Copying the properties of [args] *)




(** ** [getItems] *)







(** ** Editing a subscription *)



Lemma subscription_params_set_filters field v this :
  field <> "id" -> field <> "name" -> field <> "url" ->
  subscription_params (set_prop field v this) = subscription_params this.
Proof.
  intros N1 N2 N3. unfold subscription_params, get.
  rewrite !lookup_set_prop_other by congruence. reflexivity.
Qed.

(** X16.  On a subscription whose do_filters is a string, [addDoFilters]
    with keywords that contain no comma sends the string [addFilter]
    gives; once the callback has stored that string, returned by the
    service, in the subscription, [delDoFilters] with the same keywords
    sends what [removeFilter] gives on the original string, with the same
    id, title and url. *)
Theorem add_then_del_do_filters (this : obj) (f : string) (args : list string) :
  get "do_filters" this = VStr f ->
  forallb no_comma args = true ->
  let sent := VStr (addFilter f args) in
  let this' := set_prop "do_filters" sent this in
  addDoFilters this (Some args)
  = Ok (mkRequest "/subscriptions" "edit"
                  (subscription_params this ++ [("do_filters", sent)])%list) /\
  (forall r rest,
      get "do_filters" r = sent ->
      filters_callback "do_filters" this (VObj r :: rest) = Ok this') /\
  filters_callback "do_filters" this [] = Ok this /\
  delDoFilters this' (Some args)
  = Ok (mkRequest "/subscriptions" "edit"
                  (subscription_params this
                   ++ [("do_filters", VStr (removeFilter f args))])%list).
Proof.
  intros F C. cbv zeta.
  split; [unfold addDoFilters, filters_method; now rewrite F|].
  split; [intros r rest E; simpl; now rewrite E|].
  split; [reflexivity|].
  unfold delDoFilters, filters_method.
  unfold get at 1. rewrite lookup_set_prop_same.
  rewrite subscription_params_set_filters by discriminate.
  now rewrite (remove_added f args C).
Qed.

Lemma add_then_del_do_filters_witness :
  let this := [("id", VNum 860); ("name", VStr "Jazz Radio");
               ("url", VStr "http://a/rss.xml");
               ("do_filters", VStr "jazz, mp3")] in
  get "do_filters" this = VStr "jazz, mp3" /\
  forallb no_comma ["rock"] = true /\
  addDoFilters this (Some ["rock"])
  = Ok (mkRequest "/subscriptions" "edit"
                  [("id", VNum 860); ("title", VStr "Jazz Radio");
                   ("url", VStr "http://a/rss.xml");
                   ("do_filters", VStr "jazz,mp3,rock")]).
Proof.
  split; [reflexivity|]. split; [reflexivity|].
  apply (add_then_del_do_filters
           [("id", VNum 860); ("name", VStr "Jazz Radio");
            ("url", VStr "http://a/rss.xml");
            ("do_filters", VStr "jazz, mp3")] "jazz, mp3" ["rock"]);
    reflexivity.
Defined.

(** ** Lists built from a response *)

Lemma wrap_all_map mk results : wrap_all mk results = map mk results.
Proof.
  unfold wrap_all.
  enough (G : forall items,
             fold_left (fun items r => items ++ [mk r])%list results items
             = (items ++ map mk results)%list) by apply (G []).
  induction results as [|r rs IH]; intros items; simpl.
  - now rewrite app_nil_r.
  - now rewrite IH, <- app_assoc.
Qed.

(** X17.  The loop of [getSubscriptions] is bounded by the length of the
    array it is about to fill, which is empty: whatever the service
    returned, it stops at once and the callback gets the empty array,
    where the sibling loops of [getItems], [getTransfers], [getMessages]
    and [getFriends] give one object per record, in order. *)
Theorem getSubscriptions_gives_nothing (mk : value -> value)
    (results : list value) (fuel : nat) :
  subscriptions_loop (S fuel) mk results 0 [] = Some [] /\
  wrap_all mk results = map mk results.
Proof. split; [reflexivity | apply wrap_all_map]. Qed.

(** ** The folder list *)

Lemma createFolderList_preorder mk : forall t folders,
  createFolderList mk t folders = (folders ++ map mk (preorder t))%list.
Proof.
  fix IH 1. intros [props dirs] folders. simpl.
  enough (G : forall fs,
             fold_left (fun fs d => createFolderList mk d fs) dirs fs
             = (fs ++ map mk (flat_map preorder dirs))%list).
  { rewrite G, <- app_assoc. reflexivity. }
  induction dirs as [|d ds IHds]; intros fs; simpl.
  - now rewrite app_nil_r.
  - now rewrite IH, IHds, map_app, app_assoc.
Qed.

(** X18.  [createFolderList] appends to the array it is given one folder
    per record of the tree, each record before the records of its sub
    folders and these in their order; started on the empty array, as
    [getFolderList] does, it gives the folder of the root first. *)
Theorem createFolderList_flattens (mk : obj -> value) (props : obj)
    (dirs : list dirtree) (folders : list value) :
  createFolderList mk (Dir props dirs) folders
  = (folders ++ mk props :: map mk (flat_map preorder dirs))%list /\
  createFolderList mk (Dir props dirs) []
  = mk props :: flat_map (fun d => createFolderList mk d []) dirs /\
  createFolderList mk (Dir props []) folders = (folders ++ [mk props])%list.
Proof.
  split; [apply createFolderList_preorder|]. split; [|reflexivity].
  rewrite createFolderList_preorder. simpl. f_equal.
  induction dirs as [|d ds IH]; simpl; [reflexivity|].
  now rewrite map_app, IH, createFolderList_preorder.
Qed.

(** ** What is added is what is fetched *)



(** X20.  On a bucket a history can produce, [analyze] leaves the bucket
    as it is and builds a request with the candidate strings alone: with a
    falsy candidate argument the list sent is empty, however many locators
    are staged. *)
Theorem analyze_request_is_candidates (st : bucket) (links : value)
    (us : list string) :
  reachable st ->
  (truthy links = false -> analyze links st = (Ok (analyze_request []), st)) /\
  analyze (VArr (map VStr us)) st = (Ok (analyze_request (map VStr us)), st).
Proof.
  intros R. apply reachable_well_formed in R. split.
  - intros F.
    assert (E : analyze links st = analyze (VArr []) st).
    { unfold analyze, js_or. now rewrite F. }
    rewrite E. now apply analyze_array_well_formed.
  - apply analyze_array_well_formed; [exact R|].
    apply collect_toString_strings.
Qed.

Lemma analyze_request_is_candidates_witness :
  let st := run [Add (VStr "http://a/x")] createBucket in
  reachable st /\
  map source_url (part "singleurl" st) = [VStr "http://a/x"] /\
  analyze VUndefined st = (Ok (analyze_request []), st) /\
  analyze (VArr (map VStr ["http://b/y"])) st
  = (Ok (analyze_request [VStr "http://b/y"]), st).
Proof.
  assert (R : reachable (run [Add (VStr "http://a/x")] createBucket)).
  { apply reach_step.
    apply (reach_new VApi VUndefined VUndefined VUndefined);
      try (now left); reflexivity. }
  split; [exact R|]. split; [reflexivity|].
  destruct (analyze_request_is_candidates _ VUndefined ["http://b/y"] R)
    as [A B].
  split; [apply A; reflexivity | exact B].
Defined.
